(** * knex-types: TypeScript declarations generated from a PostgreSQL catalog

    A shallow embedding of [src/main.ts] ([updateTypes], [getType],
    [sanitize]) together with the properties stated about it.

    Modelling conventions.
    - A JavaScript string is a [string] of 8-bit characters; catalog
      identifiers and option texts are taken to be ASCII.
    - [null] / [undefined] values are [option]s.
    - [Record<string, string>] and [Map<string, string>] are [gmap string string]
      (own properties only: names inherited from [Object.prototype] are
      outside the model).
    - The writable stream and the knex handle are observed through the
      ordered trace of the calls made on them ([Write], [End], [Destroy]).
    - Every awaited catalog query either yields its rows or rejects.
    - [updateTypes] is the run on a stream whose calls return; a rejected
      query is then the only failure.  [updateTypesOn] is the run on any
      stream and file system, where stream creation, [write] and [end] may
      throw; the two agree when nothing throws ([updateTypesOn_quiet]). *)

From Stdlib Require Import Ascii String.
From stdpp Require Import base option list gmap strings.

Local Open Scope string_scope.
Local Open Scope list_scope.

(** ** Text primitives *)

Module Text.

Definition nl : string := String "010"%char EmptyString.
Definition dq : string := String "034"%char EmptyString.
Definition bs : string := String "092"%char EmptyString.

(** A text followed by a line feed. *)
Definition line (s : string) : string := s +:+ nl.

(** [s.startsWith(p)] *)
Definition startsWith (s p : string) : bool := String.prefix p s.

(** [s.endsWith(p)] *)
Definition endsWith (s p : string) : bool :=
  let n := String.length s in
  let m := String.length p in
  if Nat.leb m n then String.eqb (String.substring (n - m) m s) p else false.

(** [s.substring(1)] *)
Definition substring1 (s : string) : string :=
  match s with
  | EmptyString => EmptyString
  | String _ r => r
  end.

Definition code (c : ascii) : nat := nat_of_ascii c.

Definition between (lo hi : nat) (c : ascii) : bool :=
  Nat.leb lo (code c) && Nat.leb (code c) hi.

Definition isLower (c : ascii) : bool := between 97 122 c.
Definition isUpper (c : ascii) : bool := between 65 90 c.
Definition isDigit (c : ascii) : bool := between 48 57 c.
Definition isAlnum (c : ascii) : bool := isLower c || isUpper c || isDigit c.

Definition toUpperChar (c : ascii) : ascii :=
  if isLower c then ascii_of_nat (code c - 32) else c.
Definition toLowerChar (c : ascii) : ascii :=
  if isUpper c then ascii_of_nat (code c + 32) else c.

Fixpoint mapChars (f : ascii -> ascii) (s : string) : string :=
  match s with
  | EmptyString => EmptyString
  | String c r => String (f c) (mapChars f r)
  end.

Definition toLowerCase : string -> string := mapChars toLowerChar.

(** White space removed by [String.prototype.trim] (ASCII part). *)
Definition isWhiteSpace (c : ascii) : bool :=
  between 9 13 c || Nat.eqb (code c) 32.

Fixpoint trimStart (s : string) : string :=
  match s with
  | EmptyString => EmptyString
  | String c r => if isWhiteSpace c then trimStart r else s
  end.

Fixpoint trimEnd (s : string) : string :=
  match s with
  | EmptyString => EmptyString
  | String c r =>
      match trimEnd r with
      | EmptyString => if isWhiteSpace c then EmptyString else String c EmptyString
      | t => String c t
      end
  end.

(** [s.trim()] *)
Definition trim (s : string) : string := trimEnd (trimStart s).

(** [s.split(",")]: the empty string splits into one empty piece. *)
Fixpoint split (s : string) : list string :=
  match s with
  | EmptyString => [EmptyString]
  | String c r =>
      if Ascii.eqb c ","%char then EmptyString :: split r
      else match split r with
           | h :: t => String c h :: t
           | [] => [String c EmptyString]
           end
  end.

Fixpoint concat (l : list string) : string :=
  match l with
  | [] => EmptyString
  | s :: r => s +:+ concat r
  end.

(** Does [p] occur somewhere inside [s]? *)
Fixpoint contains (s p : string) : bool :=
  String.prefix p s ||
  match s with
  | EmptyString => false
  | String _ r => contains r p
  end.

End Text.

Import Text.

(** ** Identifier naming *)

(** Modelled from the spec: [camelCase] and [upperFirst] are imported from the
    lodash package, which is not among the sources.  Section 4.4 describes
    their composition: the identifier is split on non-alphanumeric
    boundaries, every segment is lower-cased, every segment but the first
    gets its first letter capitalised, the segments are concatenated, and
    [upperFirst] forces the first character of the whole to upper case.
    The transform is total; an absent identifier ([undefined]) is read as
    the empty string and gives the empty name. *)
Module Lodash.

Definition upperFirst (s : string) : string :=
  match s with
  | EmptyString => EmptyString
  | String c r => String (toUpperChar c) r
  end.

(** Maximal runs of alphanumeric characters; [cur] is the run being read. *)
Fixpoint wordsFrom (cur : string) (s : string) : list string :=
  match s with
  | EmptyString =>
      match cur with EmptyString => [] | _ => [cur] end
  | String c r =>
      if isAlnum c then wordsFrom (cur +:+ String c EmptyString) r
      else match cur with
           | EmptyString => wordsFrom EmptyString r
           | _ => cur :: wordsFrom EmptyString r
           end
  end.

Definition words (s : string) : list string := wordsFrom EmptyString s.

Definition capitalize (w : string) : string := upperFirst (toLowerCase w).

Definition camelCaseWords (ws : list string) : string :=
  match ws with
  | [] => EmptyString
  | w :: r => toLowerCase w +:+ concat (map capitalize r)
  end.

Definition camelCase (s : option string) : string :=
  camelCaseWords (words (default EmptyString s)).

End Lodash.

Import Lodash.

(** ** [getType] *)

Definition oneOf (udt : string) (cases : list string) : bool :=
  existsb (String.eqb udt) cases.

Definition stringCases : list string :=
  ["text"; "citext"; "money"; "numeric"; "int8"; "char"; "character";
   "bpchar"; "varchar"; "time"; "tsquery"; "tsvector"; "uuid"; "xml";
   "cidr"; "inet"; "macaddr"].

Definition numberCases : list string :=
  ["smallint"; "integer"; "int"; "int2"; "int4"; "real"; "float";
   "float4"; "float8"].

Definition dateCases : list string := ["date"; "timestamp"; "timestamptz"].

Definition jsonCases : list string := ["json"; "jsonb"].

Definition builtinCases : list string :=
  "bool" :: stringCases ++ numberCases ++ dateCases ++ jsonCases
    ++ ["bytea"; "interval"].

Definition getType (udt : string) (customTypes : gmap string string)
    (defaultValue : option string) : string :=
  if String.eqb udt "bool" then "boolean"
  else if oneOf udt stringCases then "string"
  else if oneOf udt numberCases then "number"
  else if oneOf udt dateCases then "Date"
  else if oneOf udt jsonCases then
    match defaultValue with
    | Some d =>
        if startsWith d "'{" then "Record<string, unknown>"
        else if startsWith d "'[" then "unknown[]"
        else "unknown"
    | None => "unknown"
    end
  else if String.eqb udt "bytea" then "Buffer"
  else if String.eqb udt "interval" then "PostgresInterval"
  else default "unknown" (customTypes !! udt).

(** ** [sanitize] *)

(** The character classes of [/^[a-zA-Z$_][a-zA-Z$_0-9]*$/]. *)
Definition isIdentStart (c : ascii) : bool :=
  isLower c || isUpper c || Ascii.eqb c "$"%char || Ascii.eqb c "_"%char.

Definition isIdentPart (c : ascii) : bool := isIdentStart c || isDigit c.

Fixpoint allChars (p : ascii -> bool) (s : string) : bool :=
  match s with
  | EmptyString => true
  | String c r => p c && allChars p r
  end.

Definition isIdentifier (name : string) : bool :=
  match name with
  | EmptyString => false
  | String c r => isIdentStart c && allChars isIdentPart r
  end.

Definition hexDigit (n : nat) : ascii :=
  if Nat.ltb n 10 then ascii_of_nat (48 + n) else ascii_of_nat (87 + n).

(** One character of [JSON.stringify] applied to a string. *)
Definition jsonEscape (c : ascii) : string :=
  let n := code c in
  if Nat.eqb n 8 then bs +:+ "b"
  else if Nat.eqb n 9 then bs +:+ "t"
  else if Nat.eqb n 10 then bs +:+ "n"
  else if Nat.eqb n 12 then bs +:+ "f"
  else if Nat.eqb n 13 then bs +:+ "r"
  else if Nat.eqb n 34 then bs +:+ dq
  else if Nat.eqb n 92 then bs +:+ bs
  else if Nat.ltb n 32 then
    bs +:+ "u00" +:+ String (hexDigit (n / 16)) (String (hexDigit (n mod 16)) EmptyString)
  else String c EmptyString.

Fixpoint jsonEscapeAll (s : string) : string :=
  match s with
  | EmptyString => EmptyString
  | String c r => jsonEscape c +:+ jsonEscapeAll r
  end.

Definition JSON_stringify (s : string) : string := dq +:+ jsonEscapeAll s +:+ dq.

Definition sanitize (name : string) : string :=
  if isIdentifier name then name else JSON_stringify name.

(** ** Catalog rows *)

Record Enum := mkEnum { enum_key : string; enum_value : string }.

(** A row of [information_schema.columns] as selected by the generator. *)
Record Column := mkColumn {
  col_schema : string;
  col_table : string;
  col_column : string;
  col_nullable : bool;
  col_default : option string;
  col_type : string;
  col_udt : string
}.

(** A row of [information_schema.table_constraints]. *)
Record Constraint := mkConstraint {
  constraint_name : string;
  constraint_type : string
}.

(** A row of [key_column_usage] or of [constraint_column_usage]. *)
Record Usage := mkUsage {
  use_schema : string;
  use_table : string;
  use_column : string;
  use_constraint_name : string
}.

(** [Key]: a key-usage row extended with its constraint type and with the
    referenced side, both of which a failed [find] leaves undefined. *)
Record Key := mkKey {
  key_usage : Usage;
  key_constraint_type : option string;
  key_refSchema : option Usage
}.

(** An element of [columnsWithKeyInfo]. *)
Record KeyedColumn := mkKeyedColumn {
  column_of : Column;
  is_foreign_key : bool;
  is_unique : bool;
  is_primary_key : bool;
  ref_schema : option Usage
}.

(** ** Options *)

(** [string[] | string] *)
Inductive Listing := Csv (text : string) | Items (items : list string).

Record Options := mkOptions {
  opt_overrides : gmap string string;
  opt_prefix : option string;
  opt_suffix : option string;
  opt_schema : option Listing;
  opt_exclude : option Listing
}.

(** [(typeof o === "string" ? o.split(",").map(x => x.trim()) : o) ?? dflt] *)
Definition listing (o : option Listing) (dflt : list string) : list string :=
  match o with
  | Some (Csv text) => map trim (split text)
  | Some (Items items) => items
  | None => dflt
  end.

(** The [reduce] that sorts schema entries into [acc[0]] and [acc[1]]. *)
Definition partitionSchemas (schema : list string) : list string * list string :=
  fold_left
    (fun acc s =>
       if startsWith s "!" then (fst acc, snd acc ++ [s])
       else (fst acc ++ [s], snd acc))
    schema ([], []).

(** Truthiness of an optional string: present and non-empty. *)
Definition truthy (o : option string) : option string :=
  match o with
  | Some EmptyString => None
  | other => other
  end.

(** [overrides[raw] ?? upperFirst(camelCase(raw))] *)
Definition nameOf (overrides : gmap string string) (raw : string) : string :=
  default (upperFirst (camelCase (Some raw))) (overrides !! raw).

(** ** Effects: the trace of calls and failing queries *)

Inductive Event :=
| Write (text : string)
| End
| Destroy.

#[global] Instance Event_eq_dec : EqDecision Event.
Proof. solve_decision. Defined.

Definition QueryError := string.

Inductive Result (A : Type) :=
| Ok (a : A)
| Err (e : QueryError).
Arguments Ok {A} a.
Arguments Err {A} e.

(** The answers of the database handle to the five queries of a run. *)
Record Knex := mkKnex {
  selectEnums : Result (list Enum);
  selectColumns : list string -> list string -> list string -> Result (list Column);
  selectConstraints : string -> Result (list Constraint);
  selectKeyUsage : string -> list string -> Result (list Usage);
  selectColumnUsage : list string -> Result (list Usage)
}.

(** Computations of the protected region: the calls traced so far and
    either a value or the error that aborted them. *)
Definition Run (A : Type) : Type := list Event * Result A.

Definition ret {A} (a : A) : Run A := ([], Ok a).

Definition bind {A B} (m : Run A) (f : A -> Run B) : Run B :=
  match m with
  | (ev, Ok a) => let '(ev', r) := f a in (ev ++ ev', r)
  | (ev, Err e) => (ev, Err e)
  end.

Definition await {A} (q : Result A) : Run A := ([], q).
Definition emit (ev : list Event) : Run unit := (ev, Ok tt).

Notation "'let*' x ':=' m 'in' k" := (bind m (fun x => k))
  (at level 10, x name, k at level 200).
Notation "m ';;;' k" := (bind m (fun _ => k))
  (at level 100, right associativity).

(** [l.forEach((x, i) => f(l[i - 1], x, l[i + 1]))] *)
Fixpoint forEachAround {A} (f : option A -> A -> option A -> list Event)
    (prev : option A) (l : list A) : list Event :=
  match l with
  | [] => []
  | x :: rest => f prev x (head rest) ++ forEachAround f (Some x) rest
  end.

(** ** Enum declarations *)

Definition sameEnum (o : option Enum) (x : Enum) : bool :=
  match o with
  | Some y => String.eqb (enum_key y) (enum_key x)
  | None => false
  end.

Definition enumWrites (overrides : gmap string string)
    (prev : option Enum) (x : Enum) (next : option Enum) : list Event :=
  let enumName := nameOf overrides (enum_key x) in
  (if negb (sameEnum prev x)
   then [Write ("export const " +:+ enumName +:+ " = {" +:+ nl)] else [])
  ++ [Write ("  " +:+ dq +:+ enum_value x +:+ dq +:+ ": "
             +:+ dq +:+ enum_value x +:+ dq +:+ "," +:+ nl)]
  ++ (if negb (sameEnum next x)
      then [Write ("};" +:+ nl);
            Write ("export type " +:+ enumName +:+ " = keyof typeof "
                   +:+ enumName +:+ ";" +:+ nl +:+ nl)]
      else []).

(** [new Map(enums.map(x => [x.key, name]))]: later entries overwrite. *)
Definition enumsMapOf (overrides : gmap string string) (enums : list Enum)
    : gmap string string :=
  fold_left (fun m x => <[enum_key x := nameOf overrides (enum_key x)]> m) enums ∅.

(** ** Key constraints *)

Definition keyOf (keyConstraints : list Constraint) (columnUsage : list Usage)
    (key : Usage) : Key :=
  {| key_usage := key;
     key_constraint_type :=
       constraint_type <$>
         find (fun c => String.eqb (constraint_name c) (use_constraint_name key))
              keyConstraints;
     key_refSchema :=
       find (fun c => String.eqb (use_constraint_name c) (use_constraint_name key))
            columnUsage |}.

(** The loop over [includeSchemas]; three queries per schema. *)
Fixpoint fetchKeys (db : Knex) (schemas : list string) (keys : list Key)
    : Run (list Key) :=
  match schemas with
  | [] => ret keys
  | schema :: rest =>
      let* keyConstraints := await (selectConstraints db schema) in
      let* keyUsage :=
        await (selectKeyUsage db schema (map constraint_name keyConstraints)) in
      let* columnUsage :=
        await (selectColumnUsage db (map constraint_name keyConstraints)) in
      fetchKeys db rest (keys ++ map (keyOf keyConstraints columnUsage) keyUsage)
  end.

Definition keyMatches (column : Column) (kind : string) (key : Key) : bool :=
  String.eqb (use_table (key_usage key)) (col_table column)
  && String.eqb (use_column (key_usage key)) (col_column column)
  && match key_constraint_type key with
     | Some t => String.eqb t kind
     | None => false
     end.

Definition withKeyInfo (keys : list Key) (column : Column) : KeyedColumn :=
  {| column_of := column;
     is_foreign_key := existsb (keyMatches column "FOREIGN KEY") keys;
     is_unique := existsb (keyMatches column "UNIQUE") keys;
     is_primary_key := existsb (keyMatches column "PRIMARY KEY") keys;
     ref_schema :=
       match find (keyMatches column "FOREIGN KEY") keys with
       | Some key => key_refSchema key
       | None => None
       end |}.

(** ** Table registry *)

(** The key of a table in [tableSet]: schema-qualified outside [public]. *)
Definition tableKey (x : KeyedColumn) : string :=
  let schema :=
    if negb (String.eqb (col_schema (column_of x)) "public")
    then col_schema (column_of x) +:+ "." else EmptyString in
  schema +:+ col_table (column_of x).

(** [Array.from(new Set(l))]: first occurrences, in insertion order. *)
Definition setOf (l : list string) : list string :=
  fold_left (fun acc v => if existsb (String.eqb v) acc then acc else acc ++ [v])
            l [].

Definition tableEnumWrites (overrides : gmap string string)
    (tableSet : list string) : list Event :=
  [Write ("export enum Table {" +:+ nl)]
  ++ map (fun value =>
            Write ("  " +:+ nameOf overrides value +:+ " = "
                   +:+ dq +:+ value +:+ dq +:+ "," +:+ nl))
         tableSet
  ++ [Write ("}" +:+ nl +:+ nl)].

Definition tableMapWrites (overrides : gmap string string)
    (tableSet : list string) : list Event :=
  [Write ("export type Tables = {" +:+ nl)]
  ++ map (fun key =>
            Write ("  " +:+ dq +:+ key +:+ dq +:+ ": "
                   +:+ nameOf overrides key +:+ "," +:+ nl))
         tableSet
  ++ [Write ("};" +:+ nl +:+ nl)].

(** ** Record declarations *)

Definition sameTable (o : option KeyedColumn) (x : KeyedColumn) : bool :=
  match o with
  | Some y => String.eqb (col_table (column_of y)) (col_table (column_of x))
  | None => false
  end.

Definition schemaNameOf (x : KeyedColumn) : string :=
  if negb (String.eqb (col_schema (column_of x)) "public")
  then upperFirst (camelCase (Some (col_schema (column_of x))))
  else EmptyString.

Definition tableNameOf (overrides : gmap string string) (x : KeyedColumn) : string :=
  nameOf overrides (col_table (column_of x)).

(** The type before branding: [getType], wrapped for [ARRAY] columns. *)
Definition baseType (enumsMap : gmap string string) (x : KeyedColumn) : string :=
  let c := column_of x in
  if String.eqb (col_type c) "ARRAY"
  then getType (substring1 (col_udt c)) enumsMap (col_default c) +:+ "[]"
  else getType (col_udt c) enumsMap (col_default c).

Definition selfBrand (overrides : gmap string string) (x : KeyedColumn) : string :=
  let brandName := schemaNameOf x +:+ tableNameOf overrides x in
  " & { _brand: " +:+ dq +:+ brandName +:+ dq +:+ " }".

Definition foreignBrand (x : KeyedColumn) : string :=
  let refSchemaName :=
    if negb (bool_decide (use_schema <$> ref_schema x = Some "public"))
    then upperFirst (camelCase (use_schema <$> ref_schema x))
    else EmptyString in
  let refTableName := upperFirst (camelCase (use_table <$> ref_schema x)) in
  let brandName := refTableName +:+ "Id" in
  " & { __flavor?: " +:+ dq +:+ brandName +:+ dq +:+ " }".

(** The [if] / [else if] that brands identifier columns. *)
Definition brandOf (overrides : gmap string string) (x : KeyedColumn) : string :=
  if String.eqb (col_column (column_of x)) "id"
     && (is_unique x || is_primary_key x)
  then selfBrand overrides x
  else if is_foreign_key x && endsWith (col_column (column_of x)) "id"
  then foreignBrand x
  else EmptyString.

Definition nullOf (x : KeyedColumn) : string :=
  if col_nullable (column_of x) then " | null" else EmptyString.

(** The final value of the variable [type]. *)
Definition fieldType (overrides enumsMap : gmap string string) (x : KeyedColumn)
    : string :=
  ((baseType enumsMap x +:+ brandOf overrides x) +:+ nullOf x).

Definition openLine (overrides : gmap string string) (x : KeyedColumn) : string :=
  "export type " +:+ schemaNameOf x +:+ tableNameOf overrides x +:+ " = {" +:+ nl.

Definition fieldLine (overrides enumsMap : gmap string string) (x : KeyedColumn)
    : string :=
  "  " +:+ sanitize (col_column (column_of x)) +:+ ": "
  +:+ fieldType overrides enumsMap x +:+ ";" +:+ nl.

Definition closeLine : string := "};" +:+ nl +:+ nl.

Definition recordWrites (overrides enumsMap : gmap string string)
    (prev : option KeyedColumn) (x : KeyedColumn) (next : option KeyedColumn)
    : list Event :=
  (if negb (sameTable prev x) then [Write (openLine overrides x)] else [])
  ++ [Write (fieldLine overrides enumsMap x)]
  ++ (if negb (sameTable next x) then [Write closeLine] else []).

(** ** [updateTypes] *)

(** The definitions of this part describe a run on a stream whose calls
    return; [updateTypesOn], further down, lifts that restriction. *)

Definition banner : list Event :=
  [Write ("// The TypeScript definitions below are automatically generated." +:+ nl);
   Write ("// Do not touch them, or risk, your modifications being lost." +:+ nl +:+ nl)].

Definition prefixWrites (options : Options) : list Event :=
  match truthy (opt_prefix options) with
  | Some prefix => [Write prefix; Write (nl +:+ nl)]
  | None => []
  end.

Definition suffixWrites (options : Options) : list Event :=
  match truthy (opt_suffix options) with
  | Some suffix => [Write suffix; Write nl]
  | None => []
  end.

(** The body of the [try] block. *)
Definition generate (db : Knex) (options : Options)
    (includeSchemas excludeSchemas exclude : list string) : Run unit :=
  let overrides := opt_overrides options in
  let* enums := await (selectEnums db) in
  emit (forEachAround (enumWrites overrides) None enums) ;;;
  let enumsMap := enumsMapOf overrides enums in
  let* columns := await (selectColumns db includeSchemas excludeSchemas exclude) in
  let* keys := fetchKeys db includeSchemas [] in
  let columnsWithKeyInfo := map (withKeyInfo keys) columns in
  let tableSet := setOf (map tableKey columnsWithKeyInfo) in
  emit (tableEnumWrites overrides tableSet) ;;;
  emit (tableMapWrites overrides tableSet) ;;;
  emit (forEachAround (recordWrites overrides enumsMap) None columnsWithKeyInfo) ;;;
  emit (suffixWrites options).

(** [try { ... } finally { output.end(); db.destroy(); }]: the two calls
    follow whatever the body traced, and its outcome is passed on. *)
Definition finally {A} (body : Run A) (cleanup : list Event) : Run A :=
  (fst body ++ cleanup, snd body).

Definition updateTypes (db : Knex) (options : Options) : Run unit :=
  let schema := listing (opt_schema options) ["public"] in
  let '(includeSchemas, excludeSchemas) := partitionSchemas schema in
  let exclude := listing (opt_exclude options) [] in
  emit banner ;;;
  emit (prefixWrites options) ;;;
  finally (generate db options includeSchemas excludeSchemas exclude)
          [End; Destroy].

(** The text received by the sink: its writes, concatenated. *)
Fixpoint written (trace : list Event) : string :=
  match trace with
  | [] => EmptyString
  | Write text :: rest => text +:+ written rest
  | _ :: rest => written rest
  end.

Definition writes (trace : list Event) : list string :=
  omap (fun e => match e with Write text => Some text | _ => None end) trace.

(** ** A catalog behind the queries *)

(** The catalog views the queries read.  Rows are kept in the order the
    [orderBy] clauses ask for; a constraint row carries its
    [table_schema]. *)
Record Catalog := mkCatalog {
  cat_enums : list Enum;
  cat_columns : list Column;
  cat_constraints : list (string * Constraint);
  cat_keyUsage : list Usage;
  cat_columnUsage : list Usage
}.

(** The [whereIn] / [whereNotIn] clauses of the column query. *)
Definition selectedColumns (catalog : list Column)
    (includeSchemas excludeSchemas exclude : list string) : list Column :=
  List.filter
    (fun c => oneOf (col_schema c) includeSchemas
              && negb (oneOf (col_schema c) excludeSchemas)
              && negb (oneOf (col_table c) exclude))
    catalog.

(** A database handle that answers every query from a catalog. *)
Definition serve (cat : Catalog) : Knex :=
  {| selectEnums := Ok (cat_enums cat);
     selectColumns := fun includeSchemas excludeSchemas exclude =>
       Ok (selectedColumns (cat_columns cat) includeSchemas excludeSchemas exclude);
     selectConstraints := fun schema =>
       Ok (map snd
             (List.filter
                (fun r => String.eqb (fst r) schema
                          && oneOf (constraint_type (snd r))
                               ["FOREIGN KEY"; "UNIQUE"; "PRIMARY KEY"])
                (cat_constraints cat)));
     selectKeyUsage := fun schema names =>
       Ok (List.filter
             (fun u => String.eqb (use_schema u) schema
                       && oneOf (use_constraint_name u) names)
             (cat_keyUsage cat));
     selectColumnUsage := fun names =>
       Ok (List.filter (fun u => oneOf (use_constraint_name u) names)
             (cat_columnUsage cat)) |}.

(** ** Notions and example catalogs used in the statements *)

Definition isWrite (e : Event) : bool :=
  match e with Write _ => true | _ => false end.

Definition withNullable (b : bool) (x : KeyedColumn) : KeyedColumn :=
  let c := column_of x in
  {| column_of :=
       {| col_schema := col_schema c; col_table := col_table c;
          col_column := col_column c; col_nullable := b;
          col_default := col_default c; col_type := col_type c;
          col_udt := col_udt c |};
     is_foreign_key := is_foreign_key x; is_unique := is_unique x;
     is_primary_key := is_primary_key x; ref_schema := ref_schema x |}.

Definition tagsColumn : KeyedColumn :=
  withKeyInfo [] (mkColumn "public" "post" "tags" true None "ARRAY" "_text").

(** Two database handles present the same catalog snapshot to a run with
    the given options when they answer alike every query the run can issue:
    the enum query, the column query with the run's filters, and the three
    constraint queries of every included schema. *)
Definition sameSnapshot (options : Options) (db1 db2 : Knex) : Prop :=
  let schemas := partitionSchemas (listing (opt_schema options) ["public"]) in
  selectEnums db1 = selectEnums db2
  /\ selectColumns db1 (fst schemas) (snd schemas) (listing (opt_exclude options) [])
     = selectColumns db2 (fst schemas) (snd schemas) (listing (opt_exclude options) [])
  /\ (forall schema, schema ∈ fst schemas ->
        selectConstraints db1 schema = selectConstraints db2 schema)
  /\ (forall schema names, schema ∈ fst schemas ->
        selectKeyUsage db1 schema names = selectKeyUsage db2 schema names)
  /\ (forall names, selectColumnUsage db1 names = selectColumnUsage db2 names).

Definition defaultOptions : Options :=
  {| opt_overrides := ∅; opt_prefix := None; opt_suffix := None;
     opt_schema := None; opt_exclude := None |}.

Definition moodCatalog : Catalog :=
  {| cat_enums := [mkEnum "mood" "happy"; mkEnum "mood" "sad"];
     cat_columns := [mkColumn "public" "person" "mood" true None "USER-DEFINED" "mood"];
     cat_constraints := []; cat_keyUsage := []; cat_columnUsage := [] |}.

(** A handle that differs from [serve moodCatalog] only on a schema that
    the default options never query. *)
Definition moodHandle : Knex :=
  {| selectEnums := selectEnums (serve moodCatalog);
     selectColumns := selectColumns (serve moodCatalog);
     selectConstraints := fun schema =>
       if String.eqb schema "public"
       then selectConstraints (serve moodCatalog) schema
       else Err "permission denied";
     selectKeyUsage := selectKeyUsage (serve moodCatalog);
     selectColumnUsage := selectColumnUsage (serve moodCatalog) |}.

(** A handle whose column query rejects after the enum query answered. *)
Definition brokenHandle : Knex :=
  {| selectEnums := selectEnums (serve moodCatalog);
     selectColumns := fun _ _ _ => Err "connection lost";
     selectConstraints := selectConstraints (serve moodCatalog);
     selectKeyUsage := selectKeyUsage (serve moodCatalog);
     selectColumnUsage := selectColumnUsage (serve moodCatalog) |}.

Definition logCatalog : Catalog :=
  {| cat_enums := [];
     cat_columns := [mkColumn "log" "message" "body" false None "text" "text"];
     cat_constraints := []; cat_keyUsage := []; cat_columnUsage := [] |}.

Definition logOptions : Options :=
  {| opt_overrides := ∅; opt_prefix := None; opt_suffix := None;
     opt_schema := Some (Items ["log"; "!log"]); opt_exclude := None |}.

Definition twoSchemas : Catalog :=
  {| cat_enums := [];
     cat_columns := [mkColumn "a" "t" "x" false None "text" "text";
                     mkColumn "b" "t" "y" false None "text" "text"];
     cat_constraints := []; cat_keyUsage := []; cat_columnUsage := [] |}.

Definition twoSchemasOptions : Options :=
  {| opt_overrides := ∅; opt_prefix := None; opt_suffix := None;
     opt_schema := Some (Items ["a"; "b"]); opt_exclude := None |}.

(** The distinct [(schema, table)] pairs of a column sequence. *)
Definition tablePairs (columns : list Column) : list (string * string) :=
  remove_dups (map (fun c => (col_schema c, col_table c)) columns).

(** The two tests of the branding [if] / [else if]. *)
Definition selfTest (x : KeyedColumn) : bool :=
  String.eqb (col_column (column_of x)) "id" && (is_unique x || is_primary_key x).

Definition foreignTest (x : KeyedColumn) : bool :=
  is_foreign_key x && endsWith (col_column (column_of x)) "id".

Definition profileCatalog : Catalog :=
  {| cat_enums := [];
     cat_columns := [mkColumn "public" "profile" "id" false None "integer" "int4";
                     mkColumn "public" "user" "id" false None "integer" "int4"];
     cat_constraints :=
       [("public", mkConstraint "profile_pkey" "PRIMARY KEY");
        ("public", mkConstraint "profile_id_fkey" "FOREIGN KEY");
        ("public", mkConstraint "user_pkey" "PRIMARY KEY")];
     cat_keyUsage :=
       [mkUsage "public" "profile" "id" "profile_pkey";
        mkUsage "public" "profile" "id" "profile_id_fkey";
        mkUsage "public" "user" "id" "user_pkey"];
     cat_columnUsage :=
       [mkUsage "public" "profile" "id" "profile_pkey";
        mkUsage "public" "user" "id" "profile_id_fkey";
        mkUsage "public" "user" "id" "user_pkey"] |}.

(** [profile.id]: primary key of [profile] and foreign key to [user.id]. *)
Definition profileId : KeyedColumn :=
  {| column_of := mkColumn "public" "profile" "id" false None "integer" "int4";
     is_foreign_key := true; is_unique := false; is_primary_key := true;
     ref_schema := Some (mkUsage "public" "user" "id" "profile_id_fkey") |}.

Definition orphanCatalog : Catalog :=
  {| cat_enums := [];
     cat_columns := [mkColumn "public" "post" "author_id" false None "integer" "int4";
                     mkColumn "public" "user" "id" false None "integer" "int4"];
     cat_constraints :=
       [("public", mkConstraint "post_author_id_fkey" "FOREIGN KEY");
        ("public", mkConstraint "user_pkey" "PRIMARY KEY")];
     cat_keyUsage :=
       [mkUsage "public" "post" "author_id" "post_author_id_fkey";
        mkUsage "public" "user" "id" "user_pkey"];
     cat_columnUsage := [mkUsage "public" "user" "id" "user_pkey"] |}.

(** [post.author_id] as annotated from [orphanCatalog]. *)
Definition orphanAuthorId : KeyedColumn :=
  {| column_of := mkColumn "public" "post" "author_id" false None "integer" "int4";
     is_foreign_key := true; is_unique := false; is_primary_key := false;
     ref_schema := None |}.

(** Every query of the handle yields rows. *)
Definition answering (db : Knex) : Prop :=
  (exists rows, selectEnums db = Ok rows)
  /\ (forall inc exc excl, exists rows, selectColumns db inc exc excl = Ok rows)
  /\ (forall schema, exists rows, selectConstraints db schema = Ok rows)
  /\ (forall schema names, exists rows, selectKeyUsage db schema names = Ok rows)
  /\ (forall names, exists rows, selectColumnUsage db names = Ok rows).

(** Scenario C: [post.author_id] is a foreign key to [user.id]. *)
Definition blogCatalog : Catalog :=
  {| cat_enums := [];
     cat_columns := [mkColumn "public" "post" "author_id" false None "integer" "int4";
                     mkColumn "public" "user" "id" false None "integer" "int4"];
     cat_constraints :=
       [("public", mkConstraint "post_author_id_fkey" "FOREIGN KEY");
        ("public", mkConstraint "user_pkey" "PRIMARY KEY")];
     cat_keyUsage :=
       [mkUsage "public" "post" "author_id" "post_author_id_fkey";
        mkUsage "public" "user" "id" "user_pkey"];
     cat_columnUsage :=
       [mkUsage "public" "user" "id" "post_author_id_fkey";
        mkUsage "public" "user" "id" "user_pkey"] |}.

(** ** Notions used in further properties *)

(** The test [l[j] && l[j].key === x.key] on a neighbour that may be
    missing. *)
Definition sameKey {A} (key : A -> string) (o : option A) (x : A) : bool :=
  match o with
  | Some y => String.eqb (key y) (key x)
  | None => false
  end.

(** The maximal runs of consecutive rows with the same key. *)
Fixpoint runs {A} (key : A -> string) (l : list A) : list (list A) :=
  match l with
  | [] => []
  | x :: rest =>
      match runs key rest with
      | (y :: g) :: gs =>
          if String.eqb (key x) (key y) then (x :: y :: g) :: gs
          else [x] :: (y :: g) :: gs
      | _ => [[x]]
      end
  end.

(** One block of a grouped section: what opens it, one item per row, what
    closes it. *)
Definition block {A} (op : A -> list Event) (item : A -> Event)
    (cl : A -> list Event) (opened : bool) (g : list A) : list Event :=
  match g with
  | [] => []
  | x :: _ => (if opened then [] else op x) ++ map item g ++ cl x
  end.

Definition blocks {A} (op : A -> list Event) (item : A -> Event)
    (cl : A -> list Event) (opened : bool) (gs : list (list A)) : list Event :=
  match gs with
  | [] => []
  | g :: rest => block op item cl opened g ++ flat_map (block op item cl false) rest
  end.

(** A record declaration: the opening line named after the first row of the
    run, one field line per row, the closing line. *)
Definition recordBlock (overrides enumsMap : gmap string string)
    (g : list KeyedColumn) : list Event :=
  match g with
  | [] => []
  | x :: _ =>
      Write (openLine overrides x)
      :: map (fun y => Write (fieldLine overrides enumsMap y)) g
      ++ [Write closeLine]
  end.

(** An enum declaration: the object literal with one entry per label, then
    the type alias over its keys. *)
Definition enumBlock (overrides : gmap string string) (g : list Enum) : list Event :=
  match g with
  | [] => []
  | x :: _ =>
      let enumName := nameOf overrides (enum_key x) in
      Write ("export const " +:+ enumName +:+ " = {" +:+ nl)
      :: map (fun y => Write ("  " +:+ dq +:+ enum_value y +:+ dq +:+ ": "
                              +:+ dq +:+ enum_value y +:+ dq +:+ "," +:+ nl)) g
      ++ [Write ("};" +:+ nl);
          Write ("export type " +:+ enumName +:+ " = keyof typeof "
                 +:+ enumName +:+ ";" +:+ nl +:+ nl)]
  end.


(** Neighbouring runs differ in their key. *)
Fixpoint separated {A} (key : A -> string) (gs : list (list A)) : Prop :=
  match gs with
  | (x :: _) :: rest =>
      match rest with
      | (y :: _) :: _ => key x <> key y
      | _ => True
      end /\ separated key rest
  | _ => True
  end.

(** Every run is non-empty and its rows share the key of the first. *)
Definition uniform {A} (key : A -> string) (g : list A) : Prop :=
  match g with
  | [] => False
  | x :: rest => Forall (fun y => key y = key x) rest
  end.

(** The key of a record declaration: the table name alone. *)
Definition tableOf (x : KeyedColumn) : string := col_table (column_of x).

(** Reading back a JSON string literal, used to show that distinct names
    get distinct literals. *)
Definition unhex (c : ascii) : option nat :=
  if isDigit c then Some (code c - 48)
  else if between 97 102 c then Some (code c - 87)
  else None.

(** The characters after the opening quote, up to the closing quote. *)
Fixpoint readLiteralBody (s : string) : option string :=
  match s with
  | EmptyString => None
  | String c r =>
      if Ascii.eqb c "034"%char then Some EmptyString
      else if Ascii.eqb c "092"%char then
        match r with
        | String e r1 =>
            if Ascii.eqb e "b"%char then String "008"%char <$> readLiteralBody r1
            else if Ascii.eqb e "t"%char then String "009"%char <$> readLiteralBody r1
            else if Ascii.eqb e "n"%char then String "010"%char <$> readLiteralBody r1
            else if Ascii.eqb e "f"%char then String "012"%char <$> readLiteralBody r1
            else if Ascii.eqb e "r"%char then String "013"%char <$> readLiteralBody r1
            else if Ascii.eqb e "034"%char then String "034"%char <$> readLiteralBody r1
            else if Ascii.eqb e "092"%char then String "092"%char <$> readLiteralBody r1
            else if Ascii.eqb e "u"%char then
              match r1 with
              | String _ (String _ (String h (String l r2))) =>
                  match unhex h, unhex l with
                  | Some a, Some b =>
                      String (ascii_of_nat (16 * a + b)) <$> readLiteralBody r2
                  | _, _ => None
                  end
              | _ => None
              end
            else None
        | EmptyString => None
        end
      else String c <$> readLiteralBody r
  end.

Definition readLiteral (s : string) : option string :=
  match s with
  | String c r => if Ascii.eqb c "034"%char then readLiteralBody r else None
  | EmptyString => None
  end.

(** Code 32 or above: none of the control characters U+0000 to U+001F
    (DEL, code 127, passes). *)
Definition aboveC0 (c : ascii) : bool := Nat.leb 32 (code c).

(** The three constraint queries of every schema of the list answer, the
    usage queries being asked with the names the constraint query gave. *)
Fixpoint keysAnswer (db : Knex) (schemas : list string) : Prop :=
  match schemas with
  | [] => True
  | schema :: rest =>
      (exists cs ku cu,
          selectConstraints db schema = Ok cs
          /\ selectKeyUsage db schema (map constraint_name cs) = Ok ku
          /\ selectColumnUsage db (map constraint_name cs) = Ok cu)
      /\ keysAnswer db rest
  end.

(** Every query a run with these options issues answers. *)
Definition issuedAnswer (db : Knex) (options : Options) : Prop :=
  let schemas := partitionSchemas (listing (opt_schema options) ["public"]) in
  (exists rows, selectEnums db = Ok rows)
  /\ (exists rows,
         selectColumns db (fst schemas) (snd schemas)
           (listing (opt_exclude options) []) = Ok rows)
  /\ keysAnswer db (fst schemas).

(** The keys one schema contributes (none unless its queries answer). *)
Definition schemaKeys (db : Knex) (schema : string) : list Key :=
  match selectConstraints db schema with
  | Ok cs =>
      match selectKeyUsage db schema (map constraint_name cs),
            selectColumnUsage db (map constraint_name cs) with
      | Ok ku, Ok cu => map (keyOf cs cu) ku
      | _, _ => []
      end
  | Err _ => []
  end.

(** The rows the enum query gave, none if it rejected. *)
Definition enumRows (db : Knex) : list Enum :=
  match selectEnums db with Ok rows => rows | Err _ => [] end.

(** The rows the column query gave for the run's filters. *)
Definition columnRows (db : Knex) (options : Options) : list Column :=
  let schemas := partitionSchemas (listing (opt_schema options) ["public"]) in
  match selectColumns db (fst schemas) (snd schemas)
          (listing (opt_exclude options) []) with
  | Ok rows => rows
  | Err _ => []
  end.

(** No comma occurs in the text. *)
Definition commaFree (s : string) : bool :=
  allChars (fun c => negb (Ascii.eqb c ","%char)) s.

(** The first character, if any, is not white space. *)
Definition startsClean (s : string) : Prop :=
  match s with
  | EmptyString => True
  | String c _ => isWhiteSpace c = false
  end.

(** The keys collected for [blogCatalog]. *)
Definition blogKeys : list Key :=
  map (keyOf (map snd (cat_constraints blogCatalog)) (cat_columnUsage blogCatalog))
      (cat_keyUsage blogCatalog).

(** Consecutive rows with the same table name belong to the same schema. *)
Fixpoint schemaConsistent (l : list KeyedColumn) : Prop :=
  match l with
  | x :: rest =>
      match rest with
      | y :: _ =>
          (tableOf x = tableOf y ->
           col_schema (column_of x) = col_schema (column_of y))
      | [] => True
      end /\ schemaConsistent rest
  | [] => True
  end.

(** Annotated rows of two tables with several columns each. *)
Definition newsRows : list KeyedColumn :=
  map (withKeyInfo blogKeys)
    [mkColumn "public" "post" "id" false None "integer" "int4";
     mkColumn "public" "post" "title" false None "text" "text";
     mkColumn "public" "post" "author_id" false None "integer" "int4";
     mkColumn "public" "user" "id" false None "integer" "int4";
     mkColumn "public" "user" "name" true None "text" "text"].

(** The rows of a run share the schema and the table of the first. *)
Definition uniformPair (g : list KeyedColumn) : Prop :=
  match g with
  | [] => False
  | x :: rest =>
      Forall (fun y => col_schema (column_of y) = col_schema (column_of x)
                       /\ tableOf y = tableOf x) rest
  end.

(** ** Streams whose calls may throw *)

(** A writable stream as the run sees it: given the chunks it has accepted
    so far, a call of [write] with one more chunk either returns or throws,
    and so does the call of [end]. *)
Record Writable := mkWritable {
  writeThrows : list string -> string -> option QueryError;
  endThrows : list string -> option QueryError
}.

(** [options.output]: an open stream, or a file name for
    [fs.createWriteStream]. *)
Inductive Output :=
| Stream (stream : Writable)
| File (name : string).

(** [fs.createWriteStream]: a stream, or the error it throws. *)
Definition FileSystem : Type := string -> Result Writable.

Definition openOutput (fs : FileSystem) (output : Output) : Result Writable :=
  match output with
  | Stream stream => Ok stream
  | File name => fs name
  end.

(** A stream whose calls always return. *)
Definition quiet : Writable :=
  {| writeThrows := fun _ _ => None; endThrows := fun _ => None |}.

(** [texts.forEach(text => output.write(text))] on a stream that has
    accepted [accepted]: the calls that returned, and the error of the
    first call that threw, after which no further call is made. *)
Fixpoint deliver (stream : Writable) (accepted texts : list string)
    : list Event * option QueryError :=
  match texts with
  | [] => ([], None)
  | text :: rest =>
      match writeThrows stream accepted text with
      | Some e => ([], Some e)
      | None =>
          let '(ev, thrown) := deliver stream (accepted ++ [text]) rest in
          (Write text :: ev, thrown)
      end
  end.

(** Computations that call the stream: they depend on what it has accepted
    so far. *)
Definition Exec (A : Type) : Type := list string -> Run A.

Definition andThen {A B} (m : Exec A) (f : A -> Exec B) : Exec B :=
  fun accepted =>
    match m accepted with
    | (ev, Ok a) =>
        let '(ev', r) := f a (accepted ++ writes ev) in (ev ++ ev', r)
    | (ev, Err e) => (ev, Err e)
    end.

Definition awaiting {A} (q : Result A) : Exec A := fun _ => ([], q).

Definition running {A} (m : Run A) : Exec A := fun _ => m.

Definition writing (stream : Writable) (texts : list string) : Exec unit :=
  fun accepted =>
    match deliver stream accepted texts with
    | (ev, Some e) => (ev, Err e)
    | (ev, None) => (ev, Ok tt)
    end.

Notation "'let+' x ':=' m 'in' k" := (andThen m (fun x => k))
  (at level 10, x name, k at level 200).
Notation "m ';;+' k" := (andThen m (fun _ => k))
  (at level 100, right associativity).

(** The body of the [try] block on a stream that may throw: the queries and
    the writes of [generate], in the same order. *)
Definition generateOn (stream : Writable) (db : Knex) (options : Options)
    (includeSchemas excludeSchemas exclude : list string) : Exec unit :=
  let overrides := opt_overrides options in
  let+ enums := awaiting (selectEnums db) in
  writing stream (writes (forEachAround (enumWrites overrides) None enums)) ;;+
  let enumsMap := enumsMapOf overrides enums in
  let+ columns :=
    awaiting (selectColumns db includeSchemas excludeSchemas exclude) in
  let+ keys := running (fetchKeys db includeSchemas []) in
  let columnsWithKeyInfo := map (withKeyInfo keys) columns in
  let tableSet := setOf (map tableKey columnsWithKeyInfo) in
  writing stream (writes (tableEnumWrites overrides tableSet)) ;;+
  writing stream (writes (tableMapWrites overrides tableSet)) ;;+
  writing stream
    (writes (forEachAround (recordWrites overrides enumsMap) None
               columnsWithKeyInfo)) ;;+
  writing stream (writes (suffixWrites options)).

(** [updateTypes] with the stream and the file system it is given: the
    stream is created and the banner and the prefix are written before the
    [try] block is entered, so an error thrown there leaves the function at
    once; an error in the block passes through [finally], where [end] is
    called and then, if it returned, [destroy]. *)
Definition updateTypesOn (fs : FileSystem) (output : Output) (db : Knex)
    (options : Options) : Run unit :=
  match openOutput fs output with
  | Err e => ([], Err e)
  | Ok stream =>
      let schema := listing (opt_schema options) ["public"] in
      let '(includeSchemas, excludeSchemas) := partitionSchemas schema in
      let exclude := listing (opt_exclude options) [] in
      match (writing stream (writes banner) ;;+
             writing stream (writes (prefixWrites options))) [] with
      | (ev, Err e) => (ev, Err e)
      | (ev, Ok _) =>
          let '(ev', r) :=
            generateOn stream db options includeSchemas excludeSchemas exclude
              (writes ev) in
          match endThrows stream (writes (ev ++ ev')) with
          | Some e => (ev ++ ev', Err e)
          | None => (ev ++ ev' ++ [End; Destroy], r)
          end
      end
  end.

(** A stream that refuses every chunk. *)
Definition closedStream : Writable :=
  {| writeThrows := fun _ _ => Some "write after end";
     endThrows := fun _ => None |}.

(** A stream that accepts two chunks, the banner, and refuses the third. *)
Definition fullStream : Writable :=
  {| writeThrows := fun accepted _ =>
       if Nat.ltb (length accepted) 2 then None else Some "no space left";
     endThrows := fun _ => None |}.

(** A file system that refuses every name. *)
Definition noFiles : FileSystem := fun _ => Err "invalid file name".

Definition prefixOptions : Options :=
  {| opt_overrides := ∅; opt_prefix := Some "import type { Knex } from 'knex';";
     opt_suffix := None; opt_schema := None; opt_exclude := None |}.

(** * Properties *)

(** ** Helper lemmas: strings *)

Lemma append_empty_r (s : string) : s +:+ EmptyString = s.
Proof. induction s as [|c s IH]; [reflexivity|]. unfold String.app. simpl. by f_equal. Qed.

Lemma append_assoc (a b c : string) : (a +:+ b) +:+ c = a +:+ (b +:+ c).
Proof.
  induction a as [|x a IH]; [reflexivity|].
  change (String x ((a +:+ b) +:+ c) = String x (a +:+ (b +:+ c))). by f_equal.
Qed.

Lemma append_length (a b : string) :
  String.length (a +:+ b) = String.length a + String.length b.
Proof.
  induction a as [|x a IH]; [reflexivity|].
  change (S (String.length (a +:+ b)) = S (String.length a + String.length b)).
  by f_equal.
Qed.

Lemma oneOf_false (udt : string) (cases : list string) :
  oneOf udt cases = false <-> udt ∉ cases.
Proof.
  unfold oneOf. induction cases as [|c cases IH]; simpl.
  - split; [intros _; apply not_elem_of_nil | done].
  - rewrite orb_false_iff, IH, not_elem_of_cons, String.eqb_neq. tauto.
Qed.

(** ** Helper lemmas: traces *)

Lemma bind_ok {A B} (ev : list Event) (a : A) (f : A -> Run B) :
  bind (ev, Ok a) f = (ev ++ fst (f a), snd (f a)).
Proof. simpl. by destruct (f a). Qed.

Lemma bind_err {A B} (ev : list Event) (e : QueryError) (f : A -> Run B) :
  bind (ev, Err e) f = (ev, Err e).
Proof. reflexivity. Qed.

Lemma await_bind {A B} (q : Result A) (f : A -> Run B) :
  bind (await q) f = match q with Ok a => f a | Err e => ([], Err e) end.
Proof. destruct q as [a|e]; simpl; [by destruct (f a) | done]. Qed.

Lemma emit_bind {B} (ev : list Event) (k : Run B) :
  bind (emit ev) (fun _ => k) = (ev ++ fst k, snd k).
Proof. unfold emit. apply bind_ok. Qed.

Lemma fetchKeys_step (db : Knex) (schema : string) (rest : list string)
    (keys : list Key) :
  fetchKeys db (schema :: rest) keys
  = match selectConstraints db schema with
    | Err e => ([], Err e)
    | Ok keyConstraints =>
        match selectKeyUsage db schema (map constraint_name keyConstraints) with
        | Err e => ([], Err e)
        | Ok keyUsage =>
            match selectColumnUsage db (map constraint_name keyConstraints) with
            | Err e => ([], Err e)
            | Ok columnUsage =>
                fetchKeys db rest
                  (keys ++ map (keyOf keyConstraints columnUsage) keyUsage)
            end
        end
    end.
Proof.
  cbn [fetchKeys]. rewrite await_bind.
  destruct (selectConstraints db schema) as [cs|e]; [|done].
  rewrite await_bind. destruct (selectKeyUsage db schema _) as [ku|e]; [|done].
  rewrite await_bind. by destruct (selectColumnUsage db _).
Qed.

Lemma fetchKeys_silent (db : Knex) (schemas : list string) (keys : list Key) :
  fst (fetchKeys db schemas keys) = [].
Proof.
  revert keys. induction schemas as [|s schemas IH]; intros keys; [reflexivity|].
  rewrite fetchKeys_step.
  destruct (selectConstraints db s) as [cs|e]; [|reflexivity].
  destruct (selectKeyUsage db s _) as [ku|e]; [|reflexivity].
  destruct (selectColumnUsage db _) as [cu|e]; [|reflexivity].
  apply IH.
Qed.

(** The protected region, query by query. *)
Lemma generate_unfold db options inc exc excl :
  generate db options inc exc excl
  = match selectEnums db with
    | Err e => ([], Err e)
    | Ok enums =>
        let overrides := opt_overrides options in
        let enumsMap := enumsMapOf overrides enums in
        let enumEvents := forEachAround (enumWrites overrides) None enums in
        match selectColumns db inc exc excl with
        | Err e => (enumEvents, Err e)
        | Ok columns =>
            match fetchKeys db inc [] with
            | (_, Err e) => (enumEvents, Err e)
            | (_, Ok keys) =>
                let columnsWithKeyInfo := map (withKeyInfo keys) columns in
                let tableSet := setOf (map tableKey columnsWithKeyInfo) in
                (enumEvents
                 ++ tableEnumWrites overrides tableSet
                 ++ tableMapWrites overrides tableSet
                 ++ forEachAround (recordWrites overrides enumsMap) None
                      columnsWithKeyInfo
                 ++ suffixWrites options, Ok tt)
            end
        end
    end.
Proof.
  unfold generate. rewrite await_bind.
  destruct (selectEnums db) as [enums|e]; [|done].
  rewrite emit_bind, await_bind.
  destruct (selectColumns db inc exc excl) as [columns|e];
    [|cbn [fst snd]; by rewrite app_nil_r].
  pose proof (fetchKeys_silent db inc []) as Hk.
  destruct (fetchKeys db inc []) as [ev [keys|e]]; simpl in Hk; subst ev.
  - rewrite bind_ok, !emit_bind. cbn [fst snd emit]. by rewrite app_nil_l.
  - rewrite bind_err. cbn [fst snd]. by rewrite app_nil_r.
Qed.

Lemma forEachAround_writes {A} (f : option A -> A -> option A -> list Event)
    (prev : option A) (l : list A) :
  (forall p x n, forallb isWrite (f p x n) = true) ->
  forallb isWrite (forEachAround f prev l) = true.
Proof.
  intros Hf. revert prev. induction l as [|x l IH]; intros prev; [reflexivity|].
  simpl. rewrite forallb_app, Hf, IH. reflexivity.
Qed.

Lemma enumWrites_writes o p x n : forallb isWrite (enumWrites o p x n) = true.
Proof. unfold enumWrites. by destruct (negb (sameEnum p x)), (negb (sameEnum n x)). Qed.

Lemma recordWrites_writes o m p x n : forallb isWrite (recordWrites o m p x n) = true.
Proof. unfold recordWrites. by destruct (negb (sameTable p x)), (negb (sameTable n x)). Qed.

Lemma map_Write_writes {A} (f : A -> string) (l : list A) :
  forallb isWrite (map (fun a => Write (f a)) l) = true.
Proof. induction l; simpl; auto. Qed.

Lemma tableEnumWrites_writes o ts : forallb isWrite (tableEnumWrites o ts) = true.
Proof.
  unfold tableEnumWrites. rewrite !forallb_app, map_Write_writes. reflexivity.
Qed.

Lemma tableMapWrites_writes o ts : forallb isWrite (tableMapWrites o ts) = true.
Proof.
  unfold tableMapWrites. rewrite !forallb_app, map_Write_writes. reflexivity.
Qed.

Lemma prefixWrites_writes options : forallb isWrite (prefixWrites options) = true.
Proof. unfold prefixWrites. by destruct (truthy _). Qed.

Lemma suffixWrites_writes options : forallb isWrite (suffixWrites options) = true.
Proof. unfold suffixWrites. by destruct (truthy _). Qed.

(** Whatever the queries answer, the protected region only writes. *)
Lemma generate_writes db options inc exc excl :
  forallb isWrite (fst (generate db options inc exc excl)) = true.
Proof.
  rewrite generate_unfold.
  destruct (selectEnums db) as [enums|e]; [|reflexivity].
  pose proof (forEachAround_writes _ None enums
                (enumWrites_writes (opt_overrides options))) as He.
  destruct (selectColumns db inc exc excl) as [columns|e]; [|exact He].
  destruct (fetchKeys db inc []) as [ev [keys|e]]; [|exact He].
  cbn [fst]. rewrite !forallb_app, He.
  rewrite tableEnumWrites_writes, tableMapWrites_writes, suffixWrites_writes.
  rewrite (forEachAround_writes _ _ _ (recordWrites_writes _ _)).
  reflexivity.
Qed.

Lemma all_writes (trace : list Event) :
  forallb isWrite trace = true -> trace = map Write (writes trace).
Proof.
  induction trace as [|[text| |] trace IH]; simpl; try done.
  intros H. unfold writes in *. simpl. f_equal. by apply IH.
Qed.

Lemma updateTypes_trace db options :
  fst (updateTypes db options)
  = banner ++ prefixWrites options
    ++ fst (generate db options
              (fst (partitionSchemas (listing (opt_schema options) ["public"])))
              (snd (partitionSchemas (listing (opt_schema options) ["public"])))
              (listing (opt_exclude options) []))
    ++ [End; Destroy].
Proof.
  unfold updateTypes.
  destruct (partitionSchemas _) as [inc exc]. unfold emit, finally.
  rewrite !bind_ok. cbn [fst snd]. reflexivity.
Qed.

(** ** The type mapping table *)

(** C5: every native type name of the built-in table maps to its declared
    type ([bool] to [boolean]; the text, numeric-as-text, uuid, network and
    xml names to [string]; the integer and floating names to [number]; the
    date and timestamp names to [Date]; [bytea] to [Buffer]; [interval] to
    [PostgresInterval]; [json] and [jsonb] to [unknown], narrowed to a record
    or an array by the opening token of the default literal), and any other
    name is looked up in the enum registry, giving [unknown] when absent. *)
Theorem getType_mapping_table (customTypes : gmap string string) :
  (forall d, getType "bool" customTypes d = "boolean")
  /\ Forall (fun udt => forall d, getType udt customTypes d = "string")
       ["text"; "citext"; "money"; "numeric"; "int8"; "char"; "character";
        "bpchar"; "varchar"; "time"; "tsquery"; "tsvector"; "uuid"; "xml";
        "cidr"; "inet"; "macaddr"]
  /\ Forall (fun udt => forall d, getType udt customTypes d = "number")
       ["smallint"; "integer"; "int"; "int2"; "int4"; "real"; "float";
        "float4"; "float8"]
  /\ Forall (fun udt => forall d, getType udt customTypes d = "Date")
       ["date"; "timestamp"; "timestamptz"]
  /\ (forall d, getType "bytea" customTypes d = "Buffer")
  /\ (forall d, getType "interval" customTypes d = "PostgresInterval")
  /\ Forall (fun udt =>
               getType udt customTypes None = "unknown"
               /\ forall d, getType udt customTypes (Some d)
                            = if String.prefix "'{" d then "Record<string, unknown>"
                              else if String.prefix "'[" d then "unknown[]"
                              else "unknown")
            ["json"; "jsonb"]
  /\ (forall udt d,
        udt ∉ ["bool";
               "text"; "citext"; "money"; "numeric"; "int8"; "char";
               "character"; "bpchar"; "varchar"; "time"; "tsquery";
               "tsvector"; "uuid"; "xml"; "cidr"; "inet"; "macaddr";
               "smallint"; "integer"; "int"; "int2"; "int4"; "real"; "float";
               "float4"; "float8";
               "date"; "timestamp"; "timestamptz";
               "json"; "jsonb"; "bytea"; "interval"] ->
        getType udt customTypes d
        = match customTypes !! udt with
          | Some name => name
          | None => "unknown"
          end).
Proof.
  repeat split; repeat constructor; try reflexivity.
  intros udt d Hout.
  change (udt ∉ builtinCases) in Hout. unfold builtinCases in Hout.
  apply not_elem_of_cons in Hout as [Hbool Hout].
  repeat (apply not_elem_of_app in Hout as [? Hout]).
  apply not_elem_of_cons in Hout as [Hbytea Hout].
  apply not_elem_of_cons in Hout as [Hinterval _].
  repeat match goal with
         | H : _ ∉ _ |- _ => apply oneOf_false in H
         end.
  apply String.eqb_neq in Hbool, Hbytea, Hinterval.
  unfold getType.
  repeat match goal with
         | H : _ = false |- _ => rewrite H; clear H
         end.
  by destruct (customTypes !! udt).
Qed.

Lemma getType_mapping_table_witness :
  getType "mood" (<["mood" := "Mood"]> ∅) None = "Mood"
  /\ getType "geometry" (<["mood" := "Mood"]> ∅) None = "unknown".
Proof.
  pose proof (getType_mapping_table (<["mood" := "Mood"]> ∅))
    as (_ & _ & _ & _ & _ & _ & _ & Hother).
  split.
  - rewrite (Hother "mood" None); [reflexivity|].
    apply (bool_decide_unpack _). vm_compute. reflexivity.
  - rewrite (Hother "geometry" None); [reflexivity|].
    apply (bool_decide_unpack _). vm_compute. reflexivity.
Defined.

(** ** Nullability *)

(** C6: for a nullable column the field type is the type of the same column
    taken as not nullable, followed by [ | null]; that type already holds the
    array wrapping and the brand, so the union comes last.  A nullable
    array-of-text column without key roles gets [string[] | null]. *)
Theorem nullable_union_last (overrides enumsMap : gmap string string)
    (x : KeyedColumn) :
  col_nullable (column_of x) = true ->
  fieldType overrides enumsMap x
  = fieldType overrides enumsMap (withNullable false x) +:+ " | null"
  /\ fieldType overrides enumsMap (withNullable false x)
     = baseType enumsMap x +:+ brandOf overrides x
  /\ (col_type (column_of x) = "ARRAY" ->
      baseType enumsMap x
      = getType (substring1 (col_udt (column_of x))) enumsMap
                (col_default (column_of x)) +:+ "[]")
  /\ (col_type (column_of x) = "ARRAY" -> col_udt (column_of x) = "_text" ->
      is_foreign_key x = false -> is_unique x = false ->
      is_primary_key x = false ->
      fieldType overrides enumsMap x = "string[] | null").
Proof.
  intros Hnull.
  assert (Hclear : fieldType overrides enumsMap (withNullable false x)
                   = baseType enumsMap x +:+ brandOf overrides x).
  { unfold fieldType, nullOf. cbn [withNullable column_of col_nullable].
    rewrite append_empty_r. reflexivity. }
  repeat split.
  - rewrite Hclear. unfold fieldType, nullOf. by rewrite Hnull.
  - exact Hclear.
  - intros Harr. unfold baseType. by rewrite Harr.
  - intros Harr Hudt Hfk Hu Hpk.
    unfold fieldType, nullOf, brandOf, baseType.
    rewrite Hnull, Harr, Hudt, Hfk, Hu, Hpk. cbn [orb andb].
    rewrite andb_false_r. reflexivity.
Qed.

Lemma nullable_union_last_witness :
  col_nullable (column_of tagsColumn) = true
  /\ fieldType ∅ ∅ tagsColumn = "string[] | null".
Proof.
  split; [reflexivity|].
  apply (nullable_union_last ∅ ∅ tagsColumn); reflexivity.
Defined.

(** ** The banner *)


(** ** Release of the sink and of the connection *)

Lemma filter_map_Write (e : Event) (texts : list string) :
  isWrite e = false -> filter (fun e' => e' = e) (map Write texts) = [].
Proof.
  intros He. induction texts as [|t texts IH]; [reflexivity|].
  cbn [map]. rewrite filter_cons_False; [exact IH|].
  intros <-. discriminate.
Qed.

(** An aborted run: the banner and the enum declarations were written
    when the column query rejected; the stream is ended and the handle
    destroyed all the same, and the rejection is passed on. *)
Lemma aborted_run_releases :
  updateTypes brokenHandle defaultOptions
  = ([Write (line "// The TypeScript definitions below are automatically generated.");
      Write (line "// Do not touch them, or risk, your modifications being lost."
             +:+ nl);
      Write (line "export const Mood = {");
      Write (line ("  " +:+ dq +:+ "happy" +:+ dq +:+ ": "
                   +:+ dq +:+ "happy" +:+ dq +:+ ","));
      Write (line ("  " +:+ dq +:+ "sad" +:+ dq +:+ ": "
                   +:+ dq +:+ "sad" +:+ dq +:+ ","));
      Write (line "};");
      Write (line "export type Mood = keyof typeof Mood;" +:+ nl);
      End; Destroy],
     Err "connection lost").
Proof. vm_compute. reflexivity. Qed.

(** On a stream whose calls return, every run, completed or aborted by a
    rejected query, traces a sequence of writes followed by exactly one
    [End] and one [Destroy]. *)
Lemma released_exactly_once (db : Knex) (options : Options) :
  exists texts,
    fst (updateTypes db options) = map Write texts ++ [End; Destroy]
    /\ length (filter (fun e => e = End) (fst (updateTypes db options))) = 1
    /\ length (filter (fun e => e = Destroy) (fst (updateTypes db options))) = 1.
Proof.
  pose proof (updateTypes_trace db options) as Htrace.
  set (gen := fst (generate _ _ _ _ _)) in Htrace.
  assert (Hw : forallb isWrite (banner ++ prefixWrites options ++ gen) = true).
  { rewrite !forallb_app, prefixWrites_writes. subst gen.
    rewrite generate_writes. reflexivity. }
  apply all_writes in Hw.
  exists (writes (banner ++ prefixWrites options ++ gen)).
  assert (Heq : fst (updateTypes db options)
                = map Write (writes (banner ++ prefixWrites options ++ gen))
                  ++ [End; Destroy]).
  { rewrite <- Hw, Htrace. by rewrite <- !app_assoc. }
  split; [exact Heq|].
  rewrite Heq, !filter_app, !filter_map_Write by reflexivity.
  split; reflexivity.
Qed.

(** ** Determinism *)

Lemma fetchKeys_same (db1 db2 : Knex) (schemas : list string) (keys : list Key) :
  (forall schema, schema ∈ schemas ->
     selectConstraints db1 schema = selectConstraints db2 schema) ->
  (forall schema names, schema ∈ schemas ->
     selectKeyUsage db1 schema names = selectKeyUsage db2 schema names) ->
  (forall names, selectColumnUsage db1 names = selectColumnUsage db2 names) ->
  fetchKeys db1 schemas keys = fetchKeys db2 schemas keys.
Proof.
  intros Hc Hk Hu. revert keys.
  induction schemas as [|s schemas IH]; intros keys; [reflexivity|].
  rewrite !fetchKeys_step.
  rewrite (Hc s) by apply list_elem_of_here.
  destruct (selectConstraints db2 s) as [cs|e]; [|reflexivity].
  rewrite (Hk s) by apply list_elem_of_here.
  destruct (selectKeyUsage db2 s _) as [ku|e]; [|reflexivity].
  rewrite Hu.
  destruct (selectColumnUsage db2 _) as [cu|e]; [|reflexivity].
  apply IH.
  - intros s' Hin. apply Hc. by apply list_elem_of_further.
  - intros s' names Hin. apply Hk. by apply list_elem_of_further.
Qed.

(** C8: two runs with the same options over the same catalog snapshot make
    the same calls in the same order and end alike; in particular the sink
    receives the same text. *)
Theorem updateTypes_deterministic (db1 db2 : Knex) (options : Options) :
  sameSnapshot options db1 db2 ->
  updateTypes db1 options = updateTypes db2 options
  /\ written (fst (updateTypes db1 options))
     = written (fst (updateTypes db2 options)).
Proof.
  intros (He & Hcols & Hc & Hk & Hu).
  assert (Hrun : updateTypes db1 options = updateTypes db2 options).
  { unfold updateTypes.
    destruct (partitionSchemas _) as [inc exc]. cbn [fst snd] in *.
    rewrite !generate_unfold, He, Hcols.
    by rewrite (fetchKeys_same db1 db2 inc []). }
  split; [exact Hrun | by rewrite Hrun].
Qed.

Lemma updateTypes_deterministic_witness :
  sameSnapshot defaultOptions (serve moodCatalog) moodHandle
  /\ written (fst (updateTypes (serve moodCatalog) defaultOptions))
     = written (fst (updateTypes moodHandle defaultOptions)).
Proof.
  assert (Hsame : sameSnapshot defaultOptions (serve moodCatalog) moodHandle).
  { repeat split.
    intros schema Hin. apply list_elem_of_singleton in Hin. subst schema.
    reflexivity. }
  split; [exact Hsame|].
  exact (proj2 (updateTypes_deterministic _ _ _ Hsame)).
Defined.

(** ** Schema filters *)

Lemma partitionSchemas_from (schema inc exc : list string) :
  fold_left
    (fun acc s =>
       if startsWith s "!" then (fst acc, snd acc ++ [s])
       else (fst acc ++ [s], snd acc))
    schema (inc, exc)
  = (inc ++ List.filter (fun s => negb (startsWith s "!")) schema,
     exc ++ List.filter (fun s => startsWith s "!") schema).
Proof.
  revert inc exc. induction schema as [|s schema IH]; intros inc exc.
  - simpl. by rewrite !app_nil_r.
  - cbn [fold_left List.filter]. destruct (startsWith s "!"); cbn [negb fst snd];
      rewrite IH; by rewrite <- ?app_assoc.
Qed.

(** The entries are split by their first character, each kept as written. *)
Lemma partitionSchemas_filter (schema : list string) :
  partitionSchemas schema
  = (List.filter (fun s => negb (startsWith s "!")) schema,
     List.filter (fun s => startsWith s "!") schema).
Proof. unfold partitionSchemas. by rewrite partitionSchemas_from. Qed.

(** Only tables of included schemas are selected. *)
Lemma selectedColumns_included catalog inc exc excl c :
  In c (selectedColumns catalog inc exc excl) ->
  oneOf (col_schema c) inc = true.
Proof.
  unfold selectedColumns. rewrite filter_In. intros [_ H].
  apply andb_prop in H as [H _]. apply andb_prop in H as [H _]. exact H.
Qed.

(** C3 (the code departs from it): the schema list [public, log, !auth] is
    split into the include list [public, log] and the exclude list [!auth],
    whose entry keeps its exclamation mark; no catalog schema bears that
    name, so the [whereNotIn] filter built from it removes nothing: with
    the list [log, !log] the table [log.message] is still declared. *)
Theorem exclude_entries_keep_marker :
  partitionSchemas ["public"; "log"; "!auth"] = (["public"; "log"], ["!auth"])
  /\ snd (partitionSchemas ["public"; "log"; "!auth"]) <> ["auth"]
  /\ partitionSchemas ["log"; "!log"] = (["log"], ["!log"])
  /\ selectedColumns (cat_columns logCatalog) ["log"] ["!log"] []
     = cat_columns logCatalog
  /\ writes (fst (updateTypes (serve logCatalog) logOptions))
     = [line "// The TypeScript definitions below are automatically generated.";
        line "// Do not touch them, or risk, your modifications being lost." +:+ nl;
        line "export enum Table {";
        line ("  LogMessage = " +:+ dq +:+ "log.message" +:+ dq +:+ ",");
        line "}" +:+ nl;
        line "export type Tables = {";
        line ("  " +:+ dq +:+ "log.message" +:+ dq +:+ ": LogMessage,");
        line "};" +:+ nl;
        line "export type LogMessage = {";
        line "  body: string;";
        line "};" +:+ nl].
Proof. repeat split; try discriminate; vm_compute; reflexivity. Qed.

(** ** Grouping of record declarations *)

(** C1 (the code departs from it): the tables [a.t] and [b.t] are two
    distinct [(schema, table)] pairs whose rows are adjacent in catalog
    order; the table registry lists both, but the rows share one record
    declaration, [AT], opened once and closed once, and [BT] is never
    declared: the boundary test compares table names only. *)
Theorem same_table_name_shares_one_block :
  tablePairs (cat_columns twoSchemas) = [("a", "t"); ("b", "t")]
  /\ forEachAround (recordWrites ∅ ∅) None
       (map (withKeyInfo []) (cat_columns twoSchemas))
     = [Write (line "export type AT = {");
        Write (line "  x: string;");
        Write (line "  y: string;");
        Write (line "};" +:+ nl)]
  /\ writes (fst (updateTypes (serve twoSchemas) twoSchemasOptions))
     = [line "// The TypeScript definitions below are automatically generated.";
        line "// Do not touch them, or risk, your modifications being lost." +:+ nl;
        line "export enum Table {";
        line ("  AT = " +:+ dq +:+ "a.t" +:+ dq +:+ ",");
        line ("  BT = " +:+ dq +:+ "b.t" +:+ dq +:+ ",");
        line "}" +:+ nl;
        line "export type Tables = {";
        line ("  " +:+ dq +:+ "a.t" +:+ dq +:+ ": AT,");
        line ("  " +:+ dq +:+ "b.t" +:+ dq +:+ ": BT,");
        line "};" +:+ nl;
        line "export type AT = {";
        line "  x: string;";
        line "  y: string;";
        line "};" +:+ nl].
Proof. repeat split; vm_compute; reflexivity. Qed.

(** ** Branding *)

Lemma selfBrand_not_empty o x : selfBrand o x <> EmptyString.
Proof. unfold selfBrand. cbv [String.append]. discriminate. Qed.

Lemma foreignBrand_not_empty x : foreignBrand x <> EmptyString.
Proof. unfold foreignBrand. cbv [String.append]. discriminate. Qed.

Lemma foreignBrand_not_selfBrand o x : foreignBrand x <> selfBrand o x.
Proof.
  unfold foreignBrand, selfBrand. cbv [String.append]. discriminate.
Qed.

Lemma selfTest_spec x :
  selfTest x = true
  <-> col_column (column_of x) = "id"
      /\ (is_unique x = true \/ is_primary_key x = true).
Proof.
  unfold selfTest. rewrite andb_true_iff, orb_true_iff, String.eqb_eq. tauto.
Qed.

Lemma foreignTest_spec x :
  foreignTest x = true
  <-> is_foreign_key x = true /\ endsWith (col_column (column_of x)) "id" = true.
Proof. unfold foreignTest. by rewrite andb_true_iff. Qed.

Lemma brandOf_cases o x :
  brandOf o x
  = if selfTest x then selfBrand o x
    else if foreignTest x then foreignBrand x else EmptyString.
Proof. reflexivity. Qed.

(** C2, as stated, fails: [profile.id] is named [id], is a primary key, is
    a foreign key and ends with [id], yet its field type carries the tag of
    its own table only; the flavor tag of the referenced table appears
    nowhere in the output. *)
Lemma brands_do_not_stack :
  col_column (column_of profileId) = "id"
  /\ is_primary_key profileId = true
  /\ is_foreign_key profileId = true
  /\ endsWith (col_column (column_of profileId)) "id" = true
  /\ fieldType ∅ ∅ profileId
     = "number & { _brand: " +:+ dq +:+ "Profile" +:+ dq +:+ " }"
  /\ contains (fieldType ∅ ∅ profileId) (foreignBrand profileId) = false
  /\ contains (written (fst (updateTypes (serve profileCatalog) defaultOptions)))
       ("  id: number & { _brand: " +:+ dq +:+ "Profile" +:+ dq +:+ " };")
     = true
  /\ contains (written (fst (updateTypes (serve profileCatalog) defaultOptions)))
       "__flavor"
     = false.
Proof. repeat split; vm_compute; reflexivity. Qed.

(** C2, amended: the field type is the base type, then at most one brand,
    then the null union.  The brand is the tag of the column's own table iff
    the column is named [id] and is flagged unique or primary key; it is
    the flavor tag of the referenced table iff the column is flagged
    foreign key, its name ends with [id], and it is not branded with its
    own table's tag; there is no brand iff neither condition holds.  A
    column that meets both conditions gets the tag of its own table only,
    and a column that meets neither gets its base type and the null union
    alone. *)
Theorem branding_rule (overrides enumsMap : gmap string string) (x : KeyedColumn) :
  fieldType overrides enumsMap x
  = baseType enumsMap x +:+ brandOf overrides x +:+ nullOf x
  /\ (brandOf overrides x = selfBrand overrides x
      <-> col_column (column_of x) = "id"
          /\ (is_unique x = true \/ is_primary_key x = true))
  /\ (brandOf overrides x = foreignBrand x
      <-> (is_foreign_key x = true
           /\ endsWith (col_column (column_of x)) "id" = true)
          /\ ~ (col_column (column_of x) = "id"
                /\ (is_unique x = true \/ is_primary_key x = true)))
  /\ (col_column (column_of x) = "id" ->
      is_unique x = true \/ is_primary_key x = true ->
      is_foreign_key x = true ->
      fieldType overrides enumsMap x
      = baseType enumsMap x +:+ selfBrand overrides x +:+ nullOf x)
  /\ (brandOf overrides x = EmptyString
      <-> ~ (col_column (column_of x) = "id"
             /\ (is_unique x = true \/ is_primary_key x = true))
          /\ ~ (is_foreign_key x = true
                /\ endsWith (col_column (column_of x)) "id" = true))
  /\ (~ (col_column (column_of x) = "id"
         /\ (is_unique x = true \/ is_primary_key x = true)) ->
      ~ (is_foreign_key x = true
         /\ endsWith (col_column (column_of x)) "id" = true) ->
      fieldType overrides enumsMap x = baseType enumsMap x +:+ nullOf x)
  /\ (brandOf overrides x = selfBrand overrides x
      \/ brandOf overrides x = foreignBrand x
      \/ brandOf overrides x = EmptyString).
Proof.
  rewrite <- selfTest_spec, <- foreignTest_spec, brandOf_cases.
  pose proof (selfBrand_not_empty overrides x) as Hs.
  pose proof (foreignBrand_not_empty x) as Hf.
  pose proof (foreignBrand_not_selfBrand overrides x) as Hfs.
  split; [apply append_assoc|].
  split; [|split; [|split; [|split; [|split]]]].
  - destruct (selfTest x), (foreignTest x); intuition congruence.
  - destruct (selfTest x), (foreignTest x); intuition congruence.
  - intros Hid Hkey _. unfold fieldType. rewrite brandOf_cases.
    rewrite (proj2 (selfTest_spec x) (conj Hid Hkey)). apply append_assoc.
  - destruct (selfTest x), (foreignTest x); intuition congruence.
  - intros Hself Hforeign. unfold fieldType. rewrite brandOf_cases.
    destruct (selfTest x); [exfalso; by apply Hself|].
    destruct (foreignTest x); [exfalso; by apply Hforeign|].
    by rewrite append_empty_r.
  - destruct (selfTest x), (foreignTest x); auto.
Qed.

Lemma branding_rule_witness :
  (col_column (column_of profileId) = "id"
   /\ (is_unique profileId = true \/ is_primary_key profileId = true)
   /\ is_foreign_key profileId = true
   /\ fieldType ∅ ∅ profileId
      = baseType ∅ profileId +:+ selfBrand ∅ profileId +:+ nullOf profileId)
  /\ (~ (col_column (column_of tagsColumn) = "id"
         /\ (is_unique tagsColumn = true \/ is_primary_key tagsColumn = true))
      /\ ~ (is_foreign_key tagsColumn = true
            /\ endsWith (col_column (column_of tagsColumn)) "id" = true)
      /\ fieldType ∅ ∅ tagsColumn = baseType ∅ tagsColumn +:+ nullOf tagsColumn).
Proof.
  assert (Hid : col_column (column_of profileId) = "id") by reflexivity.
  assert (Hkey : is_unique profileId = true \/ is_primary_key profileId = true)
    by (right; reflexivity).
  assert (Hfk : is_foreign_key profileId = true) by reflexivity.
  assert (Hplain : ~ (col_column (column_of tagsColumn) = "id"
                      /\ (is_unique tagsColumn = true
                          \/ is_primary_key tagsColumn = true)))
    by (intros [H _]; discriminate H).
  assert (Hnofk : ~ (is_foreign_key tagsColumn = true
                     /\ endsWith (col_column (column_of tagsColumn)) "id" = true))
    by (intros [H _]; discriminate H).
  split.
  - split; [exact Hid|]. split; [exact Hkey|]. split; [exact Hfk|].
    exact (proj1 (proj2 (proj2 (proj2 (branding_rule ∅ ∅ profileId))))
             Hid Hkey Hfk).
  - split; [exact Hplain|]. split; [exact Hnofk|].
    exact (proj1 (proj2 (proj2 (proj2 (proj2 (proj2
             (branding_rule ∅ ∅ tagsColumn))))))
             Hplain Hnofk).
Defined.

(** ** Foreign keys without referenced-column metadata *)

Lemma serve_answering (cat : Catalog) : answering (serve cat).
Proof. repeat split; intros; eexists; reflexivity. Qed.

Lemma fetchKeys_answering db schemas keys :
  answering db -> exists keys', fetchKeys db schemas keys = ([], Ok keys').
Proof.
  intros (_ & _ & Hc & Hk & Hu). revert keys.
  induction schemas as [|s schemas IH]; intros keys; [by eexists|].
  rewrite fetchKeys_step.
  destruct (Hc s) as [cs ->].
  destruct (Hk s (map constraint_name cs)) as [ku ->].
  destruct (Hu (map constraint_name cs)) as [cu ->].
  apply IH.
Qed.

(** A run whose queries all answer completes. *)
Lemma updateTypes_completes db options :
  answering db -> snd (updateTypes db options) = Ok tt.
Proof.
  intros Hdb. unfold updateTypes.
  destruct (partitionSchemas _) as [inc exc]. unfold finally.
  rewrite !emit_bind. cbn [snd]. rewrite generate_unfold.
  destruct (fetchKeys_answering db inc [] Hdb) as [keys ->].
  destruct Hdb as ([enums ->] & Hcols & _).
  by destruct (Hcols inc exc (listing (opt_exclude options) [])) as [rows ->].
Qed.

(** C4, as stated, fails: [post.author_id] is a foreign key whose name ends
    with [id] and for which no referenced-column row was found; the run
    completes, but the field type still carries a flavor intersection, with
    the tag [Id]. *)
Lemma missing_reference_still_branded :
  map (withKeyInfo
         (map (keyOf (map snd (cat_constraints orphanCatalog))
                     (cat_columnUsage orphanCatalog))
              (cat_keyUsage orphanCatalog)))
      (cat_columns orphanCatalog) !! 0 = Some orphanAuthorId
  /\ is_foreign_key orphanAuthorId = true
  /\ endsWith (col_column (column_of orphanAuthorId)) "id" = true
  /\ ref_schema orphanAuthorId = None
  /\ fieldType ∅ ∅ orphanAuthorId
     = "number & { __flavor?: " +:+ dq +:+ "Id" +:+ dq +:+ " }"
  /\ fieldType ∅ ∅ orphanAuthorId <> baseType ∅ orphanAuthorId
  /\ snd (updateTypes (serve orphanCatalog) defaultOptions) = Ok tt
  /\ contains (written (fst (updateTypes (serve orphanCatalog) defaultOptions)))
       ("  author_id: number & { __flavor?: " +:+ dq +:+ "Id" +:+ dq +:+ " };")
     = true.
Proof. repeat split; try discriminate; vm_compute; reflexivity. Qed.

(** C4, amended: a run whose queries answer completes whatever metadata is
    absent from the rows; a foreign-key column whose name ends with [id],
    which is not branded with its own table's tag and for which no
    referenced-column row was found, has the field type of its base type
    intersected with the flavor tag [Id], before the null union. *)
Theorem missing_reference_brand :
  (forall db options, answering db -> snd (updateTypes db options) = Ok tt)
  /\ (forall (overrides enumsMap : gmap string string) (x : KeyedColumn),
        is_foreign_key x = true ->
        endsWith (col_column (column_of x)) "id" = true ->
        ref_schema x = None ->
        selfTest x = false ->
        fieldType overrides enumsMap x
        = baseType enumsMap x
          +:+ (" & { __flavor?: " +:+ dq +:+ "Id" +:+ dq +:+ " }")
          +:+ nullOf x).
Proof.
  split; [apply updateTypes_completes|].
  intros overrides enumsMap x Hfk Hid Href Hself.
  unfold fieldType. rewrite brandOf_cases, Hself.
  unfold foreignTest. rewrite Hfk, Hid. cbn [andb].
  unfold foreignBrand. rewrite Href. apply append_assoc.
Qed.

Lemma missing_reference_brand_witness :
  answering (serve orphanCatalog)
  /\ snd (updateTypes (serve orphanCatalog) defaultOptions) = Ok tt
  /\ is_foreign_key orphanAuthorId = true
  /\ endsWith (col_column (column_of orphanAuthorId)) "id" = true
  /\ ref_schema orphanAuthorId = None
  /\ selfTest orphanAuthorId = false
  /\ fieldType ∅ ∅ orphanAuthorId
     = baseType ∅ orphanAuthorId
       +:+ (" & { __flavor?: " +:+ dq +:+ "Id" +:+ dq +:+ " }")
       +:+ nullOf orphanAuthorId.
Proof.
  split; [apply serve_answering|].
  split; [exact (proj1 missing_reference_brand _ defaultOptions
                   (serve_answering orphanCatalog))|].
  do 4 (split; [reflexivity|]).
  apply (proj2 missing_reference_brand ∅ ∅ orphanAuthorId); reflexivity.
Defined.

(** ** Field names *)

Lemma jsonEscape_length (c : ascii) : 1 <= String.length (jsonEscape c).
Proof.
  unfold jsonEscape.
  repeat match goal with
         | |- context [if ?b then _ else _] => destruct b
         end;
    rewrite ?append_length; cbn [String.length bs dq]; lia.
Qed.

Lemma jsonEscapeAll_length (s : string) :
  String.length s <= String.length (jsonEscapeAll s).
Proof.
  induction s as [|c s IH]; [reflexivity|].
  cbn [jsonEscapeAll String.length]. rewrite append_length.
  pose proof (jsonEscape_length c). lia.
Qed.

Lemma JSON_stringify_longer (s : string) :
  String.length s + 2 <= String.length (JSON_stringify s).
Proof.
  unfold JSON_stringify. rewrite !append_length. cbn [String.length dq].
  pose proof (jsonEscapeAll_length s). lia.
Qed.

(** C9, as stated, fails: the declaration of [post] has no field named
    [authorId]; the column name is written as it is in the catalog. *)
Lemma field_name_is_column_name :
  contains (written (fst (updateTypes (serve blogCatalog) defaultOptions)))
    "authorId" = false
  /\ contains (written (fst (updateTypes (serve blogCatalog) defaultOptions)))
       (line "export type Post = {"
        +:+ line ("  author_id: number & { __flavor?: "
                  +:+ dq +:+ "UserId" +:+ dq +:+ " };")
        +:+ line "};")
     = true.
Proof. split; vm_compute; reflexivity. Qed.

(** C9, amended: for the table [public.post] with the non-nullable [int4]
    column [author_id], a foreign key to [public.user.id], the record
    declaration [Post] holds the field [author_id], named as the column,
    of type [number] intersected with the flavor tag [UserId].  Field names
    go through the sanitizer only: a name is written unchanged exactly when
    it matches [[A-Za-z$_][A-Za-z$_0-9]*], and otherwise as its JSON string
    literal, between double quotes. *)
Theorem scenario_C_field :
  writes (fst (updateTypes (serve blogCatalog) defaultOptions))
  = [line "// The TypeScript definitions below are automatically generated.";
     line "// Do not touch them, or risk, your modifications being lost." +:+ nl;
     line "export enum Table {";
     line ("  Post = " +:+ dq +:+ "post" +:+ dq +:+ ",");
     line ("  User = " +:+ dq +:+ "user" +:+ dq +:+ ",");
     line "}" +:+ nl;
     line "export type Tables = {";
     line ("  " +:+ dq +:+ "post" +:+ dq +:+ ": Post,");
     line ("  " +:+ dq +:+ "user" +:+ dq +:+ ": User,");
     line "};" +:+ nl;
     line "export type Post = {";
     line ("  author_id: number & { __flavor?: " +:+ dq +:+ "UserId" +:+ dq +:+ " };");
     line "};" +:+ nl;
     line "export type User = {";
     line ("  id: number & { _brand: " +:+ dq +:+ "User" +:+ dq +:+ " };");
     line "};" +:+ nl]
  /\ (forall overrides enumsMap x,
        fieldLine overrides enumsMap x
        = "  " +:+ sanitize (col_column (column_of x)) +:+ ": "
          +:+ fieldType overrides enumsMap x +:+ ";" +:+ nl)
  /\ (forall name, sanitize name = name <-> isIdentifier name = true)
  /\ (forall name, isIdentifier name = false ->
        sanitize name = dq +:+ jsonEscapeAll name +:+ dq).
Proof.
  split; [vm_compute; reflexivity|].
  split; [reflexivity|].
  split; intros name.
  - unfold sanitize. destruct (isIdentifier name); [done|].
    split; [|done]. intros H.
    pose proof (JSON_stringify_longer name) as Hlen. rewrite H in Hlen. lia.
  - intros H. unfold sanitize. by rewrite H.
Qed.

Lemma scenario_C_field_witness :
  isIdentifier "author id" = false
  /\ sanitize "author id" = dq +:+ jsonEscapeAll "author id" +:+ dq
  /\ isIdentifier "author_id" = true
  /\ sanitize "author_id" = "author_id".
Proof.
  pose proof scenario_C_field as (_ & _ & Hplain & Hquoted).
  split; [reflexivity|].
  split; [exact (Hquoted "author id" eq_refl)|].
  split; [reflexivity|].
  exact (proj2 (Hplain "author_id") eq_refl).
Defined.

(** * Further properties *)

Section Grouping.

Context {A : Type} (key : A -> string).
Context (op : A -> list Event) (item : A -> Event) (cl : A -> list Event).
Hypothesis cl_key : forall x y, key x = key y -> cl x = cl y.

(** The shape shared by [enumWrites] and [recordWrites]. *)
Let around (prev : option A) (x : A) (next : option A) : list Event :=
  (if negb (sameKey key prev x) then op x else [])
  ++ [item x]
  ++ (if negb (sameKey key next x) then cl x else []).

Lemma runs_cons_head (x : A) (rest : list A) :
  exists g gs, runs key (x :: rest) = (x :: g) :: gs.
Proof.
  revert x. induction rest as [|y rest IH]; intros x; [by exists [], []|].
  destruct (IH y) as (g & gs & Hr).
  change (runs key (x :: y :: rest))
    with (match runs key (y :: rest) with
          | (y' :: g') :: gs' =>
              if String.eqb (key x) (key y') then (x :: y' :: g') :: gs'
              else [x] :: (y' :: g') :: gs'
          | _ => [[x]]
          end).
  rewrite Hr. destruct (String.eqb (key x) (key y)); eauto.
Qed.

Lemma runs_step (x y : A) (rest : list A) :
  runs key (x :: y :: rest)
  = match runs key (y :: rest) with
    | g :: gs =>
        if String.eqb (key x) (key y) then (x :: g) :: gs else [x] :: g :: gs
    | [] => [[x]]
    end.
Proof.
  destruct (runs_cons_head y rest) as (g & gs & Hr).
  change (runs key (x :: y :: rest))
    with (match runs key (y :: rest) with
          | (y' :: g') :: gs' =>
              if String.eqb (key x) (key y') then (x :: y' :: g') :: gs'
              else [x] :: (y' :: g') :: gs'
          | _ => [[x]]
          end).
  by rewrite Hr.
Qed.

Lemma forEachAround_blocks (prev : option A) (l : list A) :
  forEachAround around prev l
  = blocks op item cl
      (match l with x :: _ => sameKey key prev x | [] => false end)
      (runs key l).
Proof.
  revert prev. induction l as [|x rest IH]; intros prev; [reflexivity|].
  cbn [forEachAround]. rewrite IH. clear IH.
  destruct rest as [|y rest].
  - cbn. unfold around. cbn [sameKey negb].
    destruct (sameKey key prev x); cbn; by rewrite ?app_nil_r.
  - rewrite runs_step.
    destruct (runs_cons_head y rest) as (g & gs & Hr). rewrite Hr.
    unfold around. cbn [head sameKey].
    rewrite (String.eqb_sym (key y) (key x)).
    destruct (String.eqb (key x) (key y)) eqn:Hxy.
    + apply String.eqb_eq in Hxy. cbn [negb blocks block map].
      rewrite (cl_key x y Hxy).
      destruct (sameKey key prev x); cbn [negb]; by rewrite <- ?app_assoc.
    + cbn [negb blocks block map flat_map].
      destruct (sameKey key prev x); cbn [negb app]; by rewrite <- ?app_assoc.
Qed.


Lemma runs_concat (l : list A) : List.concat (runs key l) = l.
Proof.
  induction l as [|x [|y rest] IH]; [reflexivity..|].
  rewrite runs_step.
  destruct (runs_cons_head y rest) as (g & gs & Hr). rewrite Hr in *.
  destruct (String.eqb (key x) (key y)); cbn [List.concat app] in *; by rewrite IH.
Qed.

Lemma runs_uniform (l : list A) : Forall (uniform key) (runs key l).
Proof.
  induction l as [|x [|y rest] IH]; [constructor | by repeat constructor |].
  rewrite runs_step.
  destruct (runs_cons_head y rest) as (g & gs & Hr). rewrite Hr in *.
  apply Forall_cons in IH as [Hg Hgs]. cbn [uniform] in Hg.
  destruct (String.eqb (key x) (key y)) eqn:Hxy.
  - apply String.eqb_eq in Hxy. constructor; [|exact Hgs]. cbn [uniform].
    constructor; [done|]. eapply Forall_impl; [exact Hg|].
    intros z Hz. by rewrite Hz.
  - constructor; [by constructor|]. by constructor.
Qed.

Lemma runs_separated (l : list A) : separated key (runs key l).
Proof.
  induction l as [|x [|y rest] IH]; [done..|].
  rewrite runs_step.
  destruct (runs_cons_head y rest) as (g & gs & Hr). rewrite Hr in *.
  destruct (String.eqb (key x) (key y)) eqn:Hxy.
  - apply String.eqb_eq in Hxy. cbn [separated] in *.
    destruct IH as [Hhead Hrest]. split; [|exact Hrest].
    destruct gs as [|[|z ?] ?]; [done..|]. by rewrite Hxy.
  - apply String.eqb_neq in Hxy. cbn [separated]. split; [exact Hxy|exact IH].
Qed.

End Grouping.

(** X1: the record section written by the index-peeking loop is the
    rendering, run by run, of the maximal runs of consecutive rows with the
    same table name: per run one opening line named after its first row,
    one field line per row in catalog order, one closing line.  The runs
    concatenate to the row sequence, each is non-empty with a single table
    name, and neighbouring runs have different table names. *)
Theorem record_section_by_runs (overrides enumsMap : gmap string string)
    (columns : list KeyedColumn) :
  forEachAround (recordWrites overrides enumsMap) None columns
  = flat_map (recordBlock overrides enumsMap) (runs tableOf columns)
  /\ List.concat (runs tableOf columns) = columns
  /\ Forall (uniform tableOf) (runs tableOf columns)
  /\ separated tableOf (runs tableOf columns).
Proof.
  split; [|split; [apply runs_concat | split;
                   [apply runs_uniform | apply runs_separated]]].
  pose proof (forEachAround_blocks tableOf
                (fun x => [Write (openLine overrides x)])
                (fun x => Write (fieldLine overrides enumsMap x))
                (fun _ => [Write closeLine])
                (fun _ _ _ => eq_refl) None columns) as H.
  refine (eq_trans
            (H : forEachAround (recordWrites overrides enumsMap) None columns = _)
            _).
  clear H.
  destruct columns as [|x rest]; [reflexivity|].
  by destruct (runs tableOf (x :: rest)).
Qed.

(** X3: the enum section is the rendering, run by run, of the maximal runs
    of consecutive enum rows with the same type name: per run the opening
    of the object literal, one entry per label in row order, its closing,
    and the type alias over its keys, all under the name of the run. *)
Theorem enum_section_by_runs (overrides : gmap string string)
    (enums : list Enum) :
  forEachAround (enumWrites overrides) None enums
  = flat_map (enumBlock overrides) (runs enum_key enums)
  /\ List.concat (runs enum_key enums) = enums
  /\ Forall (uniform enum_key) (runs enum_key enums)
  /\ separated enum_key (runs enum_key enums).
Proof.
  split; [|split; [apply runs_concat | split;
                   [apply runs_uniform | apply runs_separated]]].
  pose proof (forEachAround_blocks enum_key
                (fun x => [Write ("export const " +:+ nameOf overrides (enum_key x)
                                  +:+ " = {" +:+ nl)])
                (fun x => Write ("  " +:+ dq +:+ enum_value x +:+ dq +:+ ": "
                                 +:+ dq +:+ enum_value x +:+ dq +:+ "," +:+ nl))
                (fun x => [Write ("};" +:+ nl);
                           Write ("export type " +:+ nameOf overrides (enum_key x)
                                  +:+ " = keyof typeof "
                                  +:+ nameOf overrides (enum_key x)
                                  +:+ ";" +:+ nl +:+ nl)])) as H.
  specialize (H ltac:(intros x y Hxy; cbv beta; by rewrite Hxy) None enums).
  refine (eq_trans (H : forEachAround (enumWrites overrides) None enums = _) _).
  clear H.
  destruct enums as [|x rest]; [reflexivity|].
  by destruct (runs enum_key (x :: rest)).
Qed.

Lemma append_cons (c : ascii) (a b : string) :
  String c a +:+ b = String c (a +:+ b).
Proof. reflexivity. Qed.

Lemma readLiteralBody_escape (c : ascii) (rest : string) :
  readLiteralBody (jsonEscape c +:+ rest) = String c <$> readLiteralBody rest.
Proof. destruct c as [[] [] [] [] [] [] [] []]; reflexivity. Qed.

Lemma readLiteralBody_escapeAll (s rest : string) :
  readLiteralBody (jsonEscapeAll s +:+ dq +:+ rest) = Some s.
Proof.
  induction s as [|c s IH]; [reflexivity|].
  cbn [jsonEscapeAll]. rewrite append_assoc, readLiteralBody_escape, IH.
  reflexivity.
Qed.

Lemma readLiteral_stringify (s : string) : readLiteral (JSON_stringify s) = Some s.
Proof.
  unfold JSON_stringify.
  change (readLiteralBody (jsonEscapeAll s +:+ dq) = Some s).
  rewrite <- (append_empty_r dq). apply readLiteralBody_escapeAll.
Qed.

Lemma allChars_append (p : ascii -> bool) (a b : string) :
  allChars p (a +:+ b) = allChars p a && allChars p b.
Proof.
  induction a as [|c a IH]; [reflexivity|].
  rewrite append_cons. cbn [allChars]. by rewrite IH, andb_assoc.
Qed.

Lemma jsonEscape_aboveC0 (c : ascii) : allChars aboveC0 (jsonEscape c) = true.
Proof. destruct c as [[] [] [] [] [] [] [] []]; reflexivity. Qed.

Lemma isIdentPart_aboveC0 (c : ascii) : isIdentPart c = true -> aboveC0 c = true.
Proof. destruct c as [[] [] [] [] [] [] [] []]; intros H; try reflexivity; discriminate H. Qed.

Lemma isIdentStart_part (c : ascii) : isIdentStart c = true -> isIdentPart c = true.
Proof. unfold isIdentPart. by intros ->. Qed.

Lemma allChars_impl (p q : ascii -> bool) (s : string) :
  (forall c, p c = true -> q c = true) -> allChars p s = true -> allChars q s = true.
Proof.
  intros Hpq. induction s as [|c s IH]; [done|]. cbn [allChars].
  rewrite !andb_true_iff. intros [Hc Hs]. auto.
Qed.

(** X17: distinct column names are written as distinct field names. *)
Theorem sanitize_injective (a b : string) : sanitize a = sanitize b -> a = b.
Proof.
  unfold sanitize.
  destruct (isIdentifier a) eqn:Ha, (isIdentifier b) eqn:Hb; intros H.
  - exact H.
  - subst a. discriminate Ha.
  - subst b. discriminate Hb.
  - apply (f_equal readLiteral) in H. rewrite !readLiteral_stringify in H.
    congruence.
Qed.

Lemma sanitize_injective_witness :
  sanitize "a b" = sanitize "a b" /\ "a b" = "a b".
Proof.
  split; [reflexivity|]. exact (sanitize_injective "a b" "a b" eq_refl).
Defined.

Lemma jsonEscapeAll_aboveC0 (s : string) :
  allChars aboveC0 (jsonEscapeAll s) = true.
Proof.
  induction s as [|c s IH]; [reflexivity|].
  cbn [jsonEscapeAll]. by rewrite allChars_append, jsonEscape_aboveC0, IH.
Qed.

(** X18: a written field name is never empty and holds no character below
    U+0020: no line feed, carriage return, tab or other C0 control
    character reaches the output unescaped.  DEL (U+007F) is not escaped:
    a name that holds it is quoted with the character kept as it is. *)
Theorem sanitize_no_C0_control (name : string) :
  allChars aboveC0 (sanitize name) = true
  /\ sanitize name <> EmptyString
  /\ sanitize (String "127"%char EmptyString)
     = dq +:+ String "127"%char EmptyString +:+ dq.
Proof.
  split; [|split; [|reflexivity]]; unfold sanitize;
    destruct (isIdentifier name) eqn:Hid.
  - destruct name as [|c r]; [discriminate Hid|].
    cbn [isIdentifier] in Hid. apply andb_prop in Hid as [Hc Hr].
    cbn [allChars]. rewrite (isIdentPart_aboveC0 c (isIdentStart_part c Hc)).
    apply (allChars_impl isIdentPart); [apply isIdentPart_aboveC0 | exact Hr].
  - unfold JSON_stringify.
    by rewrite !allChars_append, jsonEscapeAll_aboveC0.
  - by destruct name.
  - discriminate.
Qed.

Lemma fetchKeys_collects (db : Knex) (schemas : list string) (keys : list Key) :
  keysAnswer db schemas ->
  fetchKeys db schemas keys
  = ([], Ok (keys ++ flat_map (schemaKeys db) schemas)).
Proof.
  revert keys. induction schemas as [|s schemas IH]; intros keys H.
  - cbn. by rewrite app_nil_r.
  - destruct H as [(cs & ku & cu & Hc & Hk & Hu) Hrest].
    rewrite fetchKeys_step, Hc, Hk, Hu, (IH _ Hrest).
    cbn [flat_map]. unfold schemaKeys at 2. rewrite Hc, Hk, Hu.
    by rewrite app_assoc.
Qed.

Lemma fetchKeys_ok (db : Knex) (schemas : list string) (keys keys' : list Key)
    (ev : list Event) :
  fetchKeys db schemas keys = (ev, Ok keys') -> keysAnswer db schemas.
Proof.
  revert keys. induction schemas as [|s schemas IH]; intros keys; [done|].
  rewrite fetchKeys_step.
  destruct (selectConstraints db s) as [cs|e] eqn:Hc; [|done].
  destruct (selectKeyUsage db s _) as [ku|e] eqn:Hk; [|done].
  destruct (selectColumnUsage db _) as [cu|e] eqn:Hu; [|done].
  intros H. split; [by exists cs, ku, cu | by eapply IH].
Qed.

Lemma updateTypes_outcome db options :
  snd (updateTypes db options)
  = snd (generate db options
           (fst (partitionSchemas (listing (opt_schema options) ["public"])))
           (snd (partitionSchemas (listing (opt_schema options) ["public"])))
           (listing (opt_exclude options) [])).
Proof.
  unfold updateTypes.
  destruct (partitionSchemas _) as [inc exc]. unfold finally.
  by rewrite !emit_bind.
Qed.

Lemma completes_issued (db : Knex) (options : Options) :
  snd (updateTypes db options) = Ok tt -> issuedAnswer db options.
Proof.
  rewrite updateTypes_outcome, generate_unfold. unfold issuedAnswer.
  set (inc := fst (partitionSchemas _)). set (exc := snd (partitionSchemas _)).
  set (excl := listing (opt_exclude options) []).
  destruct (selectEnums db) as [enums|e]; [|done].
  destruct (selectColumns db inc exc excl) as [columns|e']; [|done].
  destruct (fetchKeys db inc []) as [ev [keys|e'']] eqn:Hf; [|done].
  intros _. repeat split; eauto using fetchKeys_ok.
Qed.

Lemma issued_completes (db : Knex) (options : Options) :
  issuedAnswer db options -> snd (updateTypes db options) = Ok tt.
Proof.
  intros ([enums He] & [columns Hc] & Hk).
  rewrite updateTypes_outcome, generate_unfold, He, Hc.
  by rewrite (fetchKeys_collects _ _ _ Hk).
Qed.

(** X5: a run aborted by a rejected query has written the banner, the
    prefix and at most the enum declarations: no table registry, no record
    declaration and no suffix reach the sink before it is closed. *)
Theorem aborted_run_output (db : Knex) (options : Options) (e : QueryError) :
  snd (updateTypes db options) = Err e ->
  fst (updateTypes db options)
  = banner ++ prefixWrites options
    ++ forEachAround (enumWrites (opt_overrides options)) None (enumRows db)
    ++ [End; Destroy].
Proof.
  rewrite updateTypes_outcome, updateTypes_trace, generate_unfold.
  unfold enumRows.
  destruct (selectEnums db) as [enums|e0]; [|done].
  destruct (selectColumns db _ _ _) as [columns|e1]; [|done].
  by destruct (fetchKeys db _ []) as [ev [keys|e2]].
Qed.

Lemma aborted_run_output_witness :
  snd (updateTypes brokenHandle defaultOptions) = Err "connection lost"
  /\ fst (updateTypes brokenHandle defaultOptions)
     = banner ++ prefixWrites defaultOptions
       ++ forEachAround (enumWrites ∅) None (enumRows brokenHandle)
       ++ [End; Destroy].
Proof.
  split; [reflexivity|].
  exact (aborted_run_output brokenHandle defaultOptions "connection lost" eq_refl).
Defined.

(** X6: a completed run writes its sections in a fixed order: banner,
    prefix, enum declarations, the [Table] enum, the [Tables] map, the record
    declarations, the suffix; then it ends the stream and destroys the
    handle.  Columns are annotated with the keys of all included schemas,
    concatenated in the order of the include list. *)
Theorem completed_run_sections (db : Knex) (options : Options) :
  snd (updateTypes db options) = Ok tt ->
  let overrides := opt_overrides options in
  let schemas := partitionSchemas (listing (opt_schema options) ["public"]) in
  let enums := enumRows db in
  let keys := flat_map (schemaKeys db) (fst schemas) in
  let columns := map (withKeyInfo keys) (columnRows db options) in
  let tableSet := setOf (map tableKey columns) in
  fst (updateTypes db options)
  = banner ++ prefixWrites options
    ++ forEachAround (enumWrites overrides) None enums
    ++ tableEnumWrites overrides tableSet
    ++ tableMapWrites overrides tableSet
    ++ forEachAround (recordWrites overrides (enumsMapOf overrides enums)) None
         columns
    ++ suffixWrites options
    ++ [End; Destroy].
Proof.
  intros Hok. apply completes_issued in Hok as ([rows He] & [cols Hc] & Hk).
  cbv zeta. rewrite updateTypes_trace, generate_unfold.
  unfold enumRows, columnRows. rewrite He, Hc.
  rewrite (fetchKeys_collects _ _ _ Hk). cbn [app fst].
  do 2 f_equal. by rewrite <- !app_assoc.
Qed.

Lemma completed_run_sections_witness :
  snd (updateTypes (serve moodCatalog) defaultOptions) = Ok tt
  /\ written (fst (updateTypes (serve moodCatalog) defaultOptions))
     = written
         (banner
          ++ forEachAround (enumWrites ∅) None (cat_enums moodCatalog)
          ++ tableEnumWrites ∅ ["person"]
          ++ tableMapWrites ∅ ["person"]
          ++ forEachAround (recordWrites ∅ (enumsMapOf ∅ (cat_enums moodCatalog)))
               None (map (withKeyInfo []) (cat_columns moodCatalog))).
Proof.
  split; [reflexivity|].
  rewrite (completed_run_sections (serve moodCatalog) defaultOptions eq_refl).
  reflexivity.
Defined.

Lemma oneOf_true (s : string) (l : list string) : oneOf s l = true <-> In s l.
Proof.
  unfold oneOf. rewrite existsb_exists. split.
  - intros (x & Hx & Heq). apply String.eqb_eq in Heq. by subst x.
  - intros H. exists s. split; [exact H | apply String.eqb_refl].
Qed.

(** ** Table registry *)

Lemma setOf_from (l acc : list string) :
  NoDup acc ->
  NoDup (fold_left
           (fun acc v => if existsb (String.eqb v) acc then acc else acc ++ [v])
           l acc)
  /\ forall k,
       In k (fold_left
               (fun acc v => if existsb (String.eqb v) acc then acc else acc ++ [v])
               l acc)
       <-> In k acc \/ In k l.
Proof.
  revert acc. induction l as [|v l IH]; intros acc Hacc.
  - split; [exact Hacc|]. intros k. cbn. tauto.
  - cbn [fold_left]. destruct (existsb (String.eqb v) acc) eqn:Hv.
    + destruct (IH acc Hacc) as [Hnd Hin]. split; [exact Hnd|].
      intros k. rewrite Hin. cbn [In].
      apply (oneOf_true v acc) in Hv. split; [tauto|].
      intros [H|[<-|H]]; auto.
    + assert (Hfresh : ~ In v acc).
      { intros Hin. apply (oneOf_true v acc) in Hin.
        unfold oneOf in Hin. congruence. }
      assert (Hnd : NoDup (acc ++ [v])).
      { apply NoDup_app. split; [exact Hacc|]. split.
        - intros x Hx Hx'. apply list_elem_of_singleton in Hx'. subst x.
          apply Hfresh. by apply list_elem_of_In.
        - apply NoDup_singleton. }
      destruct (IH (acc ++ [v]) Hnd) as [Hnd' Hin]. split; [exact Hnd'|].
      intros k. rewrite Hin, in_app_iff. cbn [In]. tauto.
Qed.

(** X7: the table registry has no duplicate: its keys are exactly the
    table keys of the columns, each listed once.  The [Table] enum is its
    opening line, one member line per registry key in registry order (the
    name of the key, then the key as a string literal), and its closing
    line; the [Tables] map is built likewise, from the key as a string
    literal to the name of the key. *)
Theorem table_registry_distinct (overrides : gmap string string)
    (columns : list KeyedColumn) :
  NoDup (setOf (map tableKey columns))
  /\ (forall k, In k (setOf (map tableKey columns))
                <-> exists x, In x columns /\ tableKey x = k)
  /\ tableEnumWrites overrides (setOf (map tableKey columns))
     = Write ("export enum Table {" +:+ nl)
       :: map (fun k => Write ("  " +:+ nameOf overrides k +:+ " = "
                               +:+ dq +:+ k +:+ dq +:+ "," +:+ nl))
              (setOf (map tableKey columns))
       ++ [Write ("}" +:+ nl +:+ nl)]
  /\ tableMapWrites overrides (setOf (map tableKey columns))
     = Write ("export type Tables = {" +:+ nl)
       :: map (fun k => Write ("  " +:+ dq +:+ k +:+ dq +:+ ": "
                               +:+ nameOf overrides k +:+ "," +:+ nl))
              (setOf (map tableKey columns))
       ++ [Write ("};" +:+ nl +:+ nl)].
Proof.
  destruct (setOf_from (map tableKey columns) [] NoDup_nil_2) as [Hnd Hin].
  split; [exact Hnd|]. split; [|split; reflexivity].
  intros k. unfold setOf. rewrite Hin, in_map_iff. cbn [In].
  split; [intros [[]|(x & Hx & Hxin)] | intros (x & Hxin & Hx)]; eauto.
Qed.

(** ** Schema filters *)

Lemma selectedColumns_In catalog inc exc excl c :
  In c (selectedColumns catalog inc exc excl)
  <-> In c catalog
      /\ oneOf (col_schema c) inc = true
      /\ oneOf (col_schema c) exc = false
      /\ oneOf (col_table c) excl = false.
Proof.
  unfold selectedColumns.
  rewrite filter_In, !andb_true_iff, !negb_true_iff. tauto.
Qed.

(** X10: for a schema whose name does not itself start with an exclamation
    mark, the column query selects a catalog row exactly when its schema is
    an entry of the schema list and its table is not in the table exclude
    list: the marked entries remove nothing. *)
Theorem marked_entries_filter_nothing (catalog : list Column)
    (schema exclude : list string) (c : Column) :
  startsWith (col_schema c) "!" = false ->
  In c (selectedColumns catalog (fst (partitionSchemas schema))
          (snd (partitionSchemas schema)) exclude)
  <-> In c catalog /\ In (col_schema c) schema /\ ~ In (col_table c) exclude.
Proof.
  intros Hplain.
  rewrite selectedColumns_In, partitionSchemas_filter. cbn [fst snd].
  rewrite oneOf_true, filter_In, Hplain.
  assert (Hexc : oneOf (col_schema c)
                   (List.filter (fun s => startsWith s "!") schema) = false).
  { destruct (oneOf _ _) eqn:H; [|done].
    apply oneOf_true in H. apply filter_In in H as [_ H]. congruence. }
  rewrite Hexc.
  assert (Hexcl : oneOf (col_table c) exclude = false <-> ~ In (col_table c) exclude).
  { split.
    - intros H Hin. apply oneOf_true in Hin. congruence.
    - intros H. destruct (oneOf (col_table c) exclude) eqn:E; [|done].
      exfalso. apply H. by apply oneOf_true. }
  rewrite Hexcl. cbn [negb]. tauto.
Qed.

Lemma marked_entries_filter_nothing_witness :
  startsWith "log" "!" = false
  /\ In (mkColumn "log" "message" "body" false None "text" "text")
        (selectedColumns (cat_columns logCatalog)
           (fst (partitionSchemas ["log"; "!log"]))
           (snd (partitionSchemas ["log"; "!log"])) []).
Proof.
  split; [reflexivity|].
  apply (marked_entries_filter_nothing (cat_columns logCatalog) ["log"; "!log"] []
           (mkColumn "log" "message" "body" false None "text" "text") eq_refl).
  cbn. tauto.
Defined.

(** ** Enum registry *)





(** ** Key annotations *)

Lemma find_existsb {A} (p : A -> bool) (l : list A) (x : A) :
  find p l = Some x -> existsb p l = true /\ In x l /\ p x = true.
Proof.
  intros H. pose proof (find_some _ _ H) as [Hin Hp].
  repeat split; try done. apply existsb_exists. eauto.
Qed.

(** X15: an annotated column carries a referenced side only if it is
    flagged foreign key, and that side is the referenced side of a
    FOREIGN KEY key with the column's table and column names. *)
Theorem ref_schema_of_foreign_key (keys : list Key) (column : Column) (r : Usage) :
  ref_schema (withKeyInfo keys column) = Some r ->
  is_foreign_key (withKeyInfo keys column) = true
  /\ exists key,
       In key keys
       /\ use_table (key_usage key) = col_table column
       /\ use_column (key_usage key) = col_column column
       /\ key_constraint_type key = Some "FOREIGN KEY"
       /\ key_refSchema key = Some r.
Proof.
  cbn [ref_schema withKeyInfo is_foreign_key].
  destruct (find (keyMatches column "FOREIGN KEY") keys) as [key|] eqn:Hf; [|done].
  intros Hr. apply find_existsb in Hf as (Hex & Hin & Hm).
  split; [exact Hex|]. exists key. unfold keyMatches in Hm.
  apply andb_prop in Hm as [Hm Ht]. apply andb_prop in Hm as [Htab Hcol].
  apply String.eqb_eq in Htab, Hcol.
  destruct (key_constraint_type key) as [t|]; [|done].
  apply String.eqb_eq in Ht. by subst t.
Qed.

(** X16: the key annotations of a column depend on its table name and
    column name only: two columns with the same table and column names get
    the same flags and the same referenced side, whatever their schemas. *)
Theorem key_flags_ignore_schema (keys : list Key) (c1 c2 : Column) :
  col_table c1 = col_table c2 ->
  col_column c1 = col_column c2 ->
  is_foreign_key (withKeyInfo keys c1) = is_foreign_key (withKeyInfo keys c2)
  /\ is_unique (withKeyInfo keys c1) = is_unique (withKeyInfo keys c2)
  /\ is_primary_key (withKeyInfo keys c1) = is_primary_key (withKeyInfo keys c2)
  /\ ref_schema (withKeyInfo keys c1) = ref_schema (withKeyInfo keys c2).
Proof.
  intros Ht Hc.
  assert (Hm : forall kind, keyMatches c1 kind = keyMatches c2 kind).
  { intros kind. unfold keyMatches. by rewrite Ht, Hc. }
  cbn [withKeyInfo is_foreign_key is_unique is_primary_key ref_schema].
  by rewrite !Hm.
Qed.

(** X8: for a table of the [public] schema the registry key is the bare
    table name, and the type name the registry gives it is the name under
    which its record declaration is opened. *)
Theorem public_table_names_agree (overrides : gmap string string) (x : KeyedColumn) :
  col_schema (column_of x) = "public" ->
  tableKey x = col_table (column_of x)
  /\ nameOf overrides (tableKey x)
     = schemaNameOf x +:+ tableNameOf overrides x
  /\ openLine overrides x
     = "export type " +:+ nameOf overrides (tableKey x) +:+ " = {" +:+ nl.
Proof.
  intros Hs. unfold openLine, tableKey, schemaNameOf, tableNameOf. rewrite Hs.
  rewrite String.eqb_refl. cbn [negb]. repeat split; reflexivity.
Qed.

Lemma split_commaFree (s : string) : Forall (fun p => commaFree p = true) (split s).
Proof.
  induction s as [|c s IH]; [by repeat constructor|].
  cbn [split]. destruct (Ascii.eqb c ","%char) eqn:Hc.
  - by constructor.
  - destruct (split s) as [|h t]; [by repeat constructor; cbn; rewrite Hc|].
    apply Forall_cons in IH as [Hh Ht]. constructor; [|exact Ht].
    unfold commaFree. cbn [allChars]. by rewrite Hc.
Qed.

Lemma split_one (x : string) : commaFree x = true -> split x = [x].
Proof.
  induction x as [|c x IH]; [done|]. unfold commaFree. cbn [allChars split].
  intros H. apply andb_prop in H as [Hc Hx]. apply negb_true_iff in Hc.
  rewrite Hc. by rewrite (IH Hx).
Qed.

Lemma split_append_comma (x r : string) :
  commaFree x = true -> split (x +:+ String ","%char r) = x :: split r.
Proof.
  induction x as [|c x IH]; [done|]. unfold commaFree. cbn [allChars].
  intros H. apply andb_prop in H as [Hc Hx]. apply negb_true_iff in Hc.
  change (String c x +:+ String ","%char r) with (String c (x +:+ String ","%char r)).
  cbn [split]. rewrite Hc. by rewrite (IH Hx).
Qed.

Lemma split_join (items : list string) :
  items <> [] -> Forall (fun s => commaFree s = true) items ->
  split (String.concat "," items) = items.
Proof.
  induction items as [|x [|y items] IH]; [done| |]; intros _ Hall.
  - apply Forall_cons in Hall as [Hx _]. by apply split_one.
  - apply Forall_cons in Hall as [Hx Hrest].
    change (String.concat "," (x :: y :: items))
      with (x +:+ String ","%char (String.concat "," (y :: items))).
    rewrite (split_append_comma _ _ Hx). f_equal. by apply IH.
Qed.

Lemma trimStart_clean (s : string) : startsClean (trimStart s).
Proof.
  induction s as [|c s IH]; [done|]. cbn [trimStart].
  by destruct (isWhiteSpace c) eqn:Hc.
Qed.

Lemma trimStart_fixed (s : string) : startsClean s -> trimStart s = s.
Proof. destruct s as [|c s]; [done|]. cbn. by intros ->. Qed.

Lemma trimEnd_clean (s : string) : startsClean s -> startsClean (trimEnd s).
Proof.
  destruct s as [|c s]; [done|]. cbn [startsClean trimEnd]. intros Hc.
  destruct (trimEnd s); [by rewrite Hc | done].
Qed.

Lemma trimEnd_idempotent (s : string) : trimEnd (trimEnd s) = trimEnd s.
Proof.
  induction s as [|c s IH]; [done|]. cbn [trimEnd].
  destruct (trimEnd s) as [|d t] eqn:Ht.
  - destruct (isWhiteSpace c) eqn:Hc; [done|]. cbn [trimEnd]. by rewrite Hc.
  - cbn [trimEnd] in *. by rewrite IH.
Qed.

Lemma trim_idempotent (s : string) : trim (trim s) = trim s.
Proof.
  unfold trim.
  rewrite (trimStart_fixed (trimEnd (trimStart s))).
  - apply trimEnd_idempotent.
  - apply trimEnd_clean, trimStart_clean.
Qed.

Lemma trimStart_allChars (p : ascii -> bool) (s : string) :
  allChars p s = true -> allChars p (trimStart s) = true.
Proof.
  induction s as [|c s IH]; [done|]. cbn [trimStart].
  destruct (isWhiteSpace c); [|done]. cbn [allChars].
  intros H. apply andb_prop in H as [_ H]. by apply IH.
Qed.

Lemma trimEnd_allChars (p : ascii -> bool) (s : string) :
  allChars p s = true -> allChars p (trimEnd s) = true.
Proof.
  induction s as [|c s IH]; [done|]. cbn [trimEnd allChars].
  intros H. apply andb_prop in H as [Hc Hs]. specialize (IH Hs).
  destruct (trimEnd s) as [|d t].
  - destruct (isWhiteSpace c); [done|]. cbn. by rewrite Hc.
  - cbn [allChars] in *. by rewrite Hc, IH.
Qed.

(** X11: every entry read from a comma-separated option text is free of
    commas and is already trimmed. *)
Theorem csv_entries_clean (text : string) (dflt : list string) (s : string) :
  In s (listing (Some (Csv text)) dflt) ->
  commaFree s = true /\ trim s = s.
Proof.
  cbn [listing]. rewrite in_map_iff. intros (p & <- & Hp). split.
  - unfold trim, commaFree. apply trimEnd_allChars, trimStart_allChars.
    pose proof (split_commaFree text) as Hall.
    rewrite Forall_forall in Hall. apply Hall. by apply list_elem_of_In.
  - apply trim_idempotent.
Qed.

Lemma csv_entries_clean_witness :
  In "log" (listing (Some (Csv "public, log ,!auth")) [])
  /\ commaFree "log" = true /\ trim "log" = "log".
Proof.
  assert (H : In "log" (listing (Some (Csv "public, log ,!auth")) []))
    by (cbn; tauto).
  split; [exact H|]. exact (csv_entries_clean _ _ _ H).
Defined.

(** X12: a non-empty list of comma-free, trimmed names, written in
    comma-separated form, is read back as the same list: the text form and
    the array form of an option are interchangeable. *)
Theorem csv_round_trip (items dflt : list string) :
  items <> [] ->
  Forall (fun s => commaFree s = true /\ trim s = s) items ->
  listing (Some (Csv (String.concat "," items))) dflt
  = listing (Some (Items items)) dflt.
Proof.
  intros Hne Hall. cbn [listing]. rewrite split_join; [|exact Hne|].
  - induction Hall as [|x l [_ Hx] _ IH]; [done|]. cbn [map].
    rewrite Hx. f_equal. destruct l; [done|]. by apply IH.
  - eapply Forall_impl; [exact Hall|]. by intros x [Hx _].
Qed.

Lemma csv_round_trip_witness :
  listing (Some (Csv "public,log,!auth")) []
  = listing (Some (Items ["public"; "log"; "!auth"])) [].
Proof.
  apply (csv_round_trip ["public"; "log"; "!auth"] []); [discriminate|].
  repeat constructor.
Defined.

(** X9: the schema entries are split by their first character, in order
    and unchanged: the include list holds the entries that do not start
    with an exclamation mark, the exclude list those that do, and no entry
    is lost or duplicated. *)
Theorem partitionSchemas_stable (schema : list string) :
  fst (partitionSchemas schema)
  = List.filter (fun s => negb (startsWith s "!")) schema
  /\ snd (partitionSchemas schema)
     = List.filter (fun s => startsWith s "!") schema
  /\ length (fst (partitionSchemas schema)) + length (snd (partitionSchemas schema))
     = length schema.
Proof.
  unfold partitionSchemas. rewrite partitionSchemas_from. cbn [fst snd app].
  split; [done|]. split; [done|].
  rewrite Nat.add_comm. apply (List.filter_length (fun s => startsWith s "!")).
Qed.

(** X14: a key keeps its key-usage row; its constraint type, when present,
    is that of a constraint row of the same constraint name, and is absent
    only when no constraint row has that name; its referenced side, when
    present, is a column-usage row of the same constraint name, and is
    absent only when no column-usage row has that name. *)
Theorem key_joined_by_constraint_name (keyConstraints : list Constraint)
    (columnUsage : list Usage) (key : Usage) :
  key_usage (keyOf keyConstraints columnUsage key) = key
  /\ (forall t,
        key_constraint_type (keyOf keyConstraints columnUsage key) = Some t ->
        exists c, In c keyConstraints
                  /\ constraint_name c = use_constraint_name key
                  /\ constraint_type c = t)
  /\ (key_constraint_type (keyOf keyConstraints columnUsage key) = None ->
      forall c, In c keyConstraints ->
                constraint_name c <> use_constraint_name key)
  /\ (forall r,
        key_refSchema (keyOf keyConstraints columnUsage key) = Some r ->
        In r columnUsage /\ use_constraint_name r = use_constraint_name key)
  /\ (key_refSchema (keyOf keyConstraints columnUsage key) = None ->
      forall r, In r columnUsage ->
                use_constraint_name r <> use_constraint_name key).
Proof.
  cbn [keyOf key_usage key_constraint_type key_refSchema].
  split; [done|]. split; [|split; [|split]].
  - intros t Ht.
    destruct (find _ keyConstraints) as [c|] eqn:Hf; [|done].
    apply find_some in Hf as [Hin Hn]. apply String.eqb_eq in Hn.
    exists c. injection Ht as Ht. done.
  - intros Hnone c Hin.
    destruct (find _ keyConstraints) as [c'|] eqn:Hf; [done|].
    pose proof (find_none _ _ Hf c Hin) as Hn. by apply String.eqb_neq.
  - intros r Hr. apply find_some in Hr as [Hin Hn].
    by apply String.eqb_eq in Hn.
  - intros Hnone r Hin.
    pose proof (find_none _ _ Hnone r Hin) as Hn. by apply String.eqb_neq.
Qed.

Lemma key_joined_by_constraint_name_witness :
  key_refSchema
    (keyOf (map snd (cat_constraints blogCatalog)) (cat_columnUsage blogCatalog)
       (mkUsage "public" "post" "author_id" "post_author_id_fkey"))
  = Some (mkUsage "public" "user" "id" "post_author_id_fkey")
  /\ use_constraint_name (mkUsage "public" "user" "id" "post_author_id_fkey")
     = "post_author_id_fkey".
Proof.
  split; [reflexivity|].
  exact (proj2 (proj1 (proj2 (proj2 (proj2
           (key_joined_by_constraint_name
              (map snd (cat_constraints blogCatalog))
              (cat_columnUsage blogCatalog)
              (mkUsage "public" "post" "author_id" "post_author_id_fkey")))))
           _ eq_refl)).
Defined.

Lemma ref_schema_of_foreign_key_witness :
  ref_schema
    (withKeyInfo blogKeys
       (mkColumn "public" "post" "author_id" false None "integer" "int4"))
  = Some (mkUsage "public" "user" "id" "post_author_id_fkey")
  /\ is_foreign_key
       (withKeyInfo blogKeys
          (mkColumn "public" "post" "author_id" false None "integer" "int4"))
     = true.
Proof.
  split; [reflexivity|].
  exact (proj1 (ref_schema_of_foreign_key blogKeys
                  (mkColumn "public" "post" "author_id" false None "integer" "int4")
                  (mkUsage "public" "user" "id" "post_author_id_fkey")
                  eq_refl)).
Defined.

Lemma key_flags_ignore_schema_witness :
  col_table (mkColumn "audit" "user" "id" false None "integer" "int4")
  = col_table (mkColumn "public" "user" "id" false None "integer" "int4")
  /\ is_primary_key
       (withKeyInfo blogKeys
          (mkColumn "audit" "user" "id" false None "integer" "int4"))
     = is_primary_key
         (withKeyInfo blogKeys
            (mkColumn "public" "user" "id" false None "integer" "int4")).
Proof.
  split; [reflexivity|].
  exact (proj1 (proj2 (proj2
           (key_flags_ignore_schema blogKeys
              (mkColumn "audit" "user" "id" false None "integer" "int4")
              (mkColumn "public" "user" "id" false None "integer" "int4")
              eq_refl eq_refl)))).
Defined.

Lemma public_table_names_agree_witness :
  col_schema (column_of profileId) = "public"
  /\ nameOf ∅ (tableKey profileId)
     = schemaNameOf profileId +:+ tableNameOf ∅ profileId.
Proof.
  split; [reflexivity|].
  exact (proj1 (proj2 (public_table_names_agree ∅ profileId eq_refl))).
Defined.

(** X2: when consecutive rows with the same table name always belong to
    the same schema, every record declaration holds the rows of a single
    (schema, table) pair, and neighbouring declarations belong to different
    tables. *)
Theorem consistent_rows_group_by_pair (overrides enumsMap : gmap string string)
    (columns : list KeyedColumn) :
  schemaConsistent columns ->
  forEachAround (recordWrites overrides enumsMap) None columns
  = flat_map (recordBlock overrides enumsMap) (runs tableOf columns)
  /\ Forall uniformPair (runs tableOf columns)
  /\ separated tableOf (runs tableOf columns).
Proof.
  intros Hcons.
  split; [|split; [|apply runs_separated]].
  - pose proof (forEachAround_blocks tableOf
                  (fun x => [Write (openLine overrides x)])
                  (fun x => Write (fieldLine overrides enumsMap x))
                  (fun _ => [Write closeLine])
                  (fun _ _ _ => eq_refl) None columns) as H.
    refine (eq_trans
              (H : forEachAround (recordWrites overrides enumsMap) None columns = _)
              _).
    destruct columns as [|x rest]; [reflexivity|].
    by destruct (runs tableOf (x :: rest)).
  - induction columns as [|x [|y rest] IH]; [constructor | by repeat constructor |].
    destruct Hcons as [Hxy Hrest]. specialize (IH Hrest).
    rewrite runs_step.
    destruct (runs_cons_head tableOf y rest) as (g & gs & Hr). rewrite Hr in *.
    apply Forall_cons in IH as [Hg Hgs]. cbn [uniformPair] in Hg.
    destruct (String.eqb (tableOf x) (tableOf y)) eqn:Heq.
    + apply String.eqb_eq in Heq. specialize (Hxy Heq).
      constructor; [|exact Hgs]. cbn [uniformPair].
      constructor; [done|]. eapply Forall_impl; [exact Hg|].
      intros z [Hs Ht]. split; congruence.
    + constructor; [by constructor|]. by constructor.
Qed.

Lemma consistent_rows_group_by_pair_witness :
  schemaConsistent newsRows
  /\ map (map (fun x => col_column (column_of x))) (runs tableOf newsRows)
     = [["id"; "title"; "author_id"]; ["id"; "name"]]
  /\ Forall uniformPair (runs tableOf newsRows).
Proof.
  assert (H : schemaConsistent newsRows).
  { cbn. repeat split; (reflexivity || discriminate). }
  split; [exact H|]. split; [reflexivity|].
  exact (proj1 (proj2 (consistent_rows_group_by_pair ∅ ∅ newsRows H))).
Defined.

(** ** Streams whose calls may throw *)

Lemma writes_app (a b : list Event) : writes (a ++ b) = writes a ++ writes b.
Proof. unfold writes. apply omap_app. Qed.

Lemma writes_map_Write (texts : list string) : writes (map Write texts) = texts.
Proof. induction texts as [|t texts IH]; [done|]. unfold writes in *. cbn. by rewrite IH. Qed.

Lemma deliver_app (stream : Writable) (accepted a b : list string) :
  deliver stream accepted (a ++ b)
  = match deliver stream accepted a with
    | (ev, Some e) => (ev, Some e)
    | (ev, None) =>
        let '(ev', thrown) := deliver stream (accepted ++ a) b in
        (ev ++ ev', thrown)
    end.
Proof.
  revert accepted. induction a as [|x a IH]; intros accepted.
  - cbn [app deliver]. rewrite app_nil_r. by destruct (deliver stream accepted b).
  - cbn [app deliver]. destruct (writeThrows stream accepted x); [done|].
    rewrite IH. destruct (deliver stream (accepted ++ [x]) a) as [ev [e|]]; [done|].
    rewrite <- app_assoc. cbn [app].
    by destruct (deliver stream (accepted ++ x :: a) b).
Qed.

Lemma deliver_returned (stream : Writable) (accepted texts : list string)
    (ev : list Event) :
  deliver stream accepted texts = (ev, None) -> ev = map Write texts.
Proof.
  revert accepted ev. induction texts as [|x texts IH]; intros accepted ev.
  - cbn. congruence.
  - cbn [deliver]. destruct (writeThrows stream accepted x); [done|].
    destruct (deliver stream (accepted ++ [x]) texts) as [ev' [e|]] eqn:Hd; [done|].
    intros H. injection H as <-. cbn [map]. f_equal. by eapply IH.
Qed.

Lemma deliver_isWrite (stream : Writable) (accepted texts : list string) :
  forallb isWrite (fst (deliver stream accepted texts)) = true.
Proof.
  revert accepted. induction texts as [|x texts IH]; intros accepted; [done|].
  cbn [deliver]. destruct (writeThrows stream accepted x); [done|].
  specialize (IH (accepted ++ [x])).
  by destruct (deliver stream (accepted ++ [x]) texts).
Qed.

Lemma deliver_quiet (accepted texts : list string) :
  deliver quiet accepted texts = (map Write texts, None).
Proof.
  revert accepted. induction texts as [|x texts IH]; intros accepted; [done|].
  cbn [deliver quiet writeThrows]. by rewrite IH.
Qed.

Lemma andThen_awaiting {A B} (q : Result A) (f : A -> Exec B)
    (accepted : list string) :
  andThen (awaiting q) f accepted
  = match q with Ok a => f a accepted | Err e => ([], Err e) end.
Proof.
  unfold andThen, awaiting. destruct q as [a|e]; [|done].
  change (writes []) with (@nil string). rewrite app_nil_r.
  by destruct (f a accepted).
Qed.

Lemma andThen_writing {B} (stream : Writable) (texts : list string)
    (k : Exec B) (accepted : list string) :
  andThen (writing stream texts) (fun _ => k) accepted
  = match deliver stream accepted texts with
    | (ev, Some e) => (ev, Err e)
    | (ev, None) => let '(ev', r) := k (accepted ++ texts) in (ev ++ ev', r)
    end.
Proof.
  unfold andThen, writing.
  destruct (deliver stream accepted texts) as [ev [e|]] eqn:Hd; [done|].
  apply deliver_returned in Hd. subst ev. by rewrite writes_map_Write.
Qed.

Lemma writing_then (stream : Writable) (a b : list string) (k : Exec unit)
    (accepted : list string) :
  (forall accepted', k accepted' = writing stream b accepted') ->
  andThen (writing stream a) (fun _ => k) accepted
  = writing stream (a ++ b) accepted.
Proof.
  intros Hk. rewrite andThen_writing, Hk. unfold writing. rewrite deliver_app.
  destruct (deliver stream accepted a) as [ev [e|]]; [done|].
  by destruct (deliver stream (accepted ++ a) b) as [ev' [e|]].
Qed.

(** The protected region on any stream: the writes of [generate], handed to
    the stream in order until one throws. *)
Lemma generateOn_deliver stream db options inc exc excl accepted :
  generateOn stream db options inc exc excl accepted
  = match deliver stream accepted
            (writes (fst (generate db options inc exc excl))) with
    | (ev, Some e) => (ev, Err e)
    | (ev, None) => (ev, snd (generate db options inc exc excl))
    end.
Proof.
  unfold generateOn. rewrite generate_unfold, andThen_awaiting.
  destruct (selectEnums db) as [enums|e]; [|done].
  rewrite andThen_writing. cbv zeta.
  set (enumTexts := writes (forEachAround (enumWrites _) None enums)).
  rewrite andThen_awaiting.
  destruct (selectColumns db inc exc excl) as [columns|e].
  - pose proof (fetchKeys_silent db inc []) as Hk.
    unfold andThen at 1. unfold running at 1.
    destruct (fetchKeys db inc []) as [ev0 [keys|e]]; simpl in Hk; subst ev0.
    + change (writes []) with (@nil string). rewrite app_nil_r.
      erewrite writing_then;
        [|intros; erewrite writing_then;
          [reflexivity | intros; erewrite writing_then; [reflexivity | done]]].
      cbn [fst snd app]. rewrite !writes_app. fold enumTexts.
      rewrite deliver_app. unfold writing.
      destruct (deliver stream accepted enumTexts) as [ev [e|]]; [done|].
      by destruct (deliver stream (accepted ++ enumTexts) _) as [ev' [e|]].
    + cbn [fst snd]. fold enumTexts.
      destruct (deliver stream accepted enumTexts) as [ev [e'|]]; [done|].
      by rewrite app_nil_r.
  - cbn [fst snd]. fold enumTexts.
    destruct (deliver stream accepted enumTexts) as [ev [e'|]]; [done|].
    by rewrite app_nil_r.
Qed.

(** A run on an opened stream: the banner and the prefix are handed to the
    stream first; only if all of them were accepted does the protected
    region run, followed by [end] and, if that returned, [destroy]. *)
Lemma updateTypesOn_opened fs output stream db options :
  openOutput fs output = Ok stream ->
  updateTypesOn fs output db options
  = let schemas := partitionSchemas (listing (opt_schema options) ["public"]) in
    let pre := writes (banner ++ prefixWrites options) in
    let gen := generate db options (fst schemas) (snd schemas)
                 (listing (opt_exclude options) []) in
    match deliver stream [] pre with
    | (ev, Some e) => (ev, Err e)
    | (ev, None) =>
        let '(ev', thrown) := deliver stream pre (writes (fst gen)) in
        match endThrows stream (pre ++ writes ev') with
        | Some e => (ev ++ ev', Err e)
        | None =>
            (ev ++ ev' ++ [End; Destroy],
             match thrown with Some e => Err e | None => snd gen end)
        end
    end.
Proof.
  intros Hopen. unfold updateTypesOn. rewrite Hopen.
  destruct (partitionSchemas _) as [inc exc]. cbv zeta. cbn [fst snd].
  rewrite (writing_then stream (writes banner) (writes (prefixWrites options)))
    by done.
  rewrite <- writes_app. unfold writing.
  destruct (deliver stream [] (writes (banner ++ prefixWrites options)))
    as [ev [e|]] eqn:Hpre; [done|].
  apply deliver_returned in Hpre. subst ev. rewrite writes_map_Write.
  rewrite generateOn_deliver.
  destruct (deliver stream _ (writes (fst (generate _ _ _ _ _))))
    as [ev' [e|]]; rewrite writes_app, writes_map_Write; done.
Qed.

(** On a stream whose calls return, [updateTypesOn] is [updateTypes]. *)
Lemma updateTypesOn_quiet fs db options :
  updateTypesOn fs (Stream quiet) db options = updateTypes db options.
Proof.
  rewrite (updateTypesOn_opened fs (Stream quiet) quiet) by done.
  cbv zeta. rewrite !deliver_quiet. cbn [endThrows quiet].
  pose proof (updateTypes_trace db options) as Ht.
  pose proof (updateTypes_outcome db options) as Ho.
  destruct (updateTypes db options) as [trace outcome]. cbn [fst snd] in *.
  subst trace outcome. f_equal.
  rewrite <- !all_writes.
  - by rewrite <- app_assoc.
  - apply generate_writes.
  - rewrite forallb_app. by rewrite prefixWrites_writes.
Qed.

(** X19: once the stream is created and has accepted the banner and the
    prefix, so that the [try] block is entered, and provided [end] returns,
    the calls of the run are writes followed by exactly one [End] and one
    [Destroy], whatever a query or a write inside the block throws. *)
Theorem released_once_entered fs output stream db options ev :
  openOutput fs output = Ok stream ->
  deliver stream [] (writes (banner ++ prefixWrites options)) = (ev, None) ->
  (forall accepted, endThrows stream accepted = None) ->
  exists texts,
    fst (updateTypesOn fs output db options) = map Write texts ++ [End; Destroy].
Proof.
  intros Hopen Hpre Hend.
  rewrite (updateTypesOn_opened _ _ _ _ _ Hopen). cbv zeta. rewrite Hpre.
  pose proof (deliver_returned _ _ _ _ Hpre) as ->.
  pose proof (deliver_isWrite stream (writes (banner ++ prefixWrites options))
                (writes (fst (generate db options
                   (fst (partitionSchemas (listing (opt_schema options) ["public"])))
                   (snd (partitionSchemas (listing (opt_schema options) ["public"])))
                   (listing (opt_exclude options) []))))) as Hw.
  destruct (deliver stream _ (writes (fst (generate _ _ _ _ _)))) as [ev' thrown].
  cbn [fst] in Hw. apply all_writes in Hw. rewrite Hend. cbn [fst].
  exists (writes (banner ++ prefixWrites options) ++ writes ev').
  by rewrite map_app, <- Hw, <- app_assoc.
Qed.

Lemma released_once_entered_witness :
  openOutput noFiles (Stream fullStream) = Ok fullStream
  /\ deliver fullStream [] (writes (banner ++ prefixWrites defaultOptions))
     = (banner, None)
  /\ (forall accepted, endThrows fullStream accepted = None)
  /\ exists texts,
       fst (updateTypesOn noFiles (Stream fullStream) brokenHandle defaultOptions)
       = map Write texts ++ [End; Destroy].
Proof.
  split; [reflexivity|]. split; [reflexivity|]. split; [reflexivity|].
  apply (released_once_entered noFiles (Stream fullStream) fullStream
           brokenHandle defaultOptions banner); reflexivity.
Defined.

(** C7 (the code departs from it): the stream is created and the banner
    and the prefix are written before the [try] block.  On a stream that
    refuses its first chunk the run ends with no call of [end] and none of
    [destroy]; so it does on a stream that accepts the banner and refuses
    the prefix, and when the stream cannot be created.  The same refusal
    met inside the block, for a run without prefix, does pass through
    [finally]: the stream is ended and the handle destroyed. *)
Theorem errors_before_try_skip_release (fs : FileSystem) (db : Knex)
    (options : Options) :
  updateTypesOn fs (Stream closedStream) db options = ([], Err "write after end")
  /\ updateTypesOn fs (Stream fullStream) db prefixOptions
     = (banner, Err "no space left")
  /\ (forall name,
        updateTypesOn noFiles (File name) db options
        = ([], Err "invalid file name"))
  /\ updateTypesOn fs (Stream fullStream) (serve moodCatalog) defaultOptions
     = (banner ++ [End; Destroy], Err "no space left").
Proof.
  split; [|split; [|split]].
  - by rewrite (updateTypesOn_opened fs _ closedStream).
  - by rewrite (updateTypesOn_opened fs _ fullStream).
  - done.
  - vm_compute. reflexivity.
Qed.

Lemma updateTypes_texts db options :
  writes (fst (updateTypes db options))
  = writes (banner ++ prefixWrites options)
    ++ writes (fst (generate db options
                      (fst (partitionSchemas (listing (opt_schema options) ["public"])))
                      (snd (partitionSchemas (listing (opt_schema options) ["public"])))
                      (listing (opt_exclude options) []))).
Proof.
  rewrite updateTypes_trace, !writes_app.
  change (writes [End; Destroy]) with (@nil string).
  by rewrite app_nil_r, app_assoc.
Qed.

(** X4: a run completes exactly when nothing it does fails: the stream
    can be created, every query the run issues answers, the stream accepts
    in turn every text of the run, and [end] returns once they are all
    accepted. *)
Theorem completes_iff_nothing_fails (fs : FileSystem) (output : Output)
    (db : Knex) (options : Options) :
  snd (updateTypesOn fs output db options) = Ok tt
  <-> exists stream,
        openOutput fs output = Ok stream
        /\ issuedAnswer db options
        /\ snd (deliver stream [] (writes (fst (updateTypes db options)))) = None
        /\ endThrows stream (writes (fst (updateTypes db options))) = None.
Proof.
  rewrite updateTypes_texts.
  destruct (openOutput fs output) as [stream|e] eqn:Hopen.
  2:{ unfold updateTypesOn. rewrite Hopen. split; [done|].
      by intros (stream & Hs & _). }
  rewrite (updateTypesOn_opened _ _ _ _ _ Hopen). cbv zeta.
  pose proof (updateTypes_outcome db options) as Hout.
  set (pre := writes (banner ++ prefixWrites options)) in *.
  set (gen := generate db options _ _ _) in *.
  destruct (deliver stream [] pre) as [ev [e|]] eqn:Hpre.
  { split; [done|]. intros (s & Hs & _ & Hd & _).
    injection Hs as <-. rewrite deliver_app, Hpre in Hd. done. }
  destruct (deliver stream pre (writes (fst gen))) as [ev' thrown] eqn:Hgen.
  split.
  - intros Hok. exists stream. split; [done|].
    destruct (endThrows stream (pre ++ writes ev')) as [e|] eqn:Hend; [done|].
    cbn [snd] in Hok. destruct thrown as [e|]; [done|].
    apply deliver_returned in Hgen as Hev. subst ev'.
    rewrite writes_map_Write in Hend.
    split; [apply completes_issued; congruence|].
    rewrite deliver_app, Hpre, app_nil_l, Hgen. by split.
  - intros (s & Hs & Hq & Hd & Hend). injection Hs as <-.
    rewrite deliver_app, Hpre, app_nil_l, Hgen in Hd. cbn [snd] in Hd.
    subst thrown. apply deliver_returned in Hgen as Hev. subst ev'.
    rewrite writes_map_Write, Hend. cbn [snd].
    rewrite <- Hout. by apply issued_completes.
Qed.

Lemma completes_iff_nothing_fails_witness :
  (exists stream,
      openOutput noFiles (Stream quiet) = Ok stream
      /\ issuedAnswer (serve moodCatalog) defaultOptions
      /\ snd (deliver stream []
                (writes (fst (updateTypes (serve moodCatalog) defaultOptions))))
         = None
      /\ endThrows stream
           (writes (fst (updateTypes (serve moodCatalog) defaultOptions)))
         = None)
  /\ snd (updateTypesOn noFiles (Stream quiet) (serve moodCatalog) defaultOptions)
     = Ok tt.
Proof.
  assert (H : exists stream,
             openOutput noFiles (Stream quiet) = Ok stream
             /\ issuedAnswer (serve moodCatalog) defaultOptions
             /\ snd (deliver stream []
                       (writes (fst (updateTypes (serve moodCatalog)
                                       defaultOptions))))
                = None
             /\ endThrows stream
                  (writes (fst (updateTypes (serve moodCatalog) defaultOptions)))
                = None).
  { exists quiet. split; [reflexivity|]. split.
    - split; [by eexists|]. split; [by eexists|].
      split; [|exact I]. by eexists _, _, _.
    - split; [|reflexivity]. by rewrite deliver_quiet. }
  split; [exact H|].
  exact (proj2 (completes_iff_nothing_fails _ _ _ _) H).
Defined.
